(** * TCGA-ESCA mutation pipeline: a shallow embedding of
    [3fetch_stage_mutation.py] and the properties of its five components
    (file locator, record reader, stage sampler, exporter, visualizer).

    The script is embedded function by function.  What it calls from
    [os], [random], [pandas] and [matplotlib] is modelled first, at the
    level of detail the script observes:

    - the file system is a tree of directories and regular files (no
      symbolic links, no permission bits); a regular file carries the
      outcome of [pd.read_csv] on it with the script's fixed arguments;
    - a data frame is a list of column labels and a list of labelled
      rows; a cell that a row does not have reads as the null value;
    - [print], the random generator and the files written are threaded
      through a state-and-exception monad; an exception is an instance
      of a subclass of [Exception];
    - a library call fails only in the ways written out here
      ([KeyError] for a missing column, [OSError]s of path lookup,
      [ValueError] of [pd.concat] and [random.sample]): writing to the
      standard output or to the disk and drawing the figure succeed.

    The file has three parts: the model of the libraries and the
    script; the vocabulary of the properties and a sample tree; the
    lemmas and the properties C1 to C10. *)

From Stdlib Require Import List String Ascii Bool Arith ZArith Lia Permutation.
From Stdlib Require Import DecimalString.
Import ListNotations.

Local Open Scope string_scope.
Local Open Scope list_scope.

Set Implicit Arguments.

(* ================================================================= *)
(** ** Python values *)

(** An instance of a subclass of [Exception]: its class name and the
    text [str(e)] gives. *)
Record exn : Set := Exception { exn_class : string; exn_msg : string }.

(** [str(n)] for a non-negative integer. *)
Definition str_of_nat (n : nat) : string :=
  NilZero.string_of_uint (Nat.to_uint n).

Definition str_of_Z (z : Z) : string :=
  NilZero.string_of_int (Z.to_int z).

(** [s.startswith(p)], and [s.endswith(p)]: some suffix of [s] is [p]. *)
Definition str_startswith (s p : string) : bool := String.prefix p s.

Fixpoint str_endswith (s p : string) : bool :=
  String.eqb s p ||
  match s with
  | EmptyString => false
  | String _ s' => str_endswith s' p
  end.

(** [x in l] for a list or set of strings. *)
Definition str_in (x : string) (l : list string) : bool :=
  existsb (String.eqb x) l.

(** [a.issubset(b)]. *)
Definition issubset (a b : list string) : bool :=
  forallb (fun x => str_in x b) a.

(** [l[j] = v]; nothing happens in the model when [j] is out of range
    (the script never does that). *)
Fixpoint list_set {A} (j : nat) (v : A) (l : list A) {struct l} : list A :=
  match l with
  | [] => []
  | h :: t => match j with
              | 0 => v :: t
              | S j' => h :: list_set j' v t
              end
  end.

(* ================================================================= *)
(** ** Data frames *)

(** A cell: the null value ([NaN]/[None]), a string or a number (the
    script tests cells against strings only, so numbers are not told
    apart any further). *)
Inductive cell : Set :=
| NA
| Str (s : string)
| Num (z : Z).

Definition cell_eqb (a b : cell) : bool :=
  match a, b with
  | NA, NA => true
  | Str s, Str t => String.eqb s t
  | Num x, Num y => Z.eqb x y
  | _, _ => false
  end.

Definition cell_eq_dec (a b : cell) : {a = b} + {a <> b}.
Proof.
  decide equality; [apply string_dec | apply Z.eq_dec].
Defined.

(** [pd.isna]. *)
Definition isna (c : cell) : bool :=
  match c with NA => true | _ => false end.

(** [str(c)] as an f-string renders a label. *)
Definition str_of_cell (c : cell) : string :=
  match c with
  | NA => "nan"
  | Str s => s
  | Num z => str_of_Z z
  end.

(** A row: its index label and its cells, in column order. *)
Record Row : Set := mkRow { idx : nat; cells : list cell }.

Record DataFrame : Set := mkDF { columns : list string; rows : list Row }.

(** Position of the first column labelled [c]. *)
Fixpoint col_index (c : string) (cols : list string) : option nat :=
  match cols with
  | [] => None
  | h :: t => if String.eqb c h then Some 0
              else match col_index c t with
                   | Some i => Some (S i)
                   | None => None
                   end
  end.

(** The cell of row [r] under column [c]; null when the row is too
    short or the column is absent. *)
Definition get_cell (cols : list string) (r : Row) (c : string) : cell :=
  match col_index c cols with
  | Some i => nth i (cells r) NA
  | None => NA
  end.

(** [len(df)]. *)
Definition len (df : DataFrame) : nat := List.length (rows df).

(** [df.empty]: some axis has length zero. *)
Definition empty (df : DataFrame) : bool :=
  (List.length (rows df) =? 0)%nat || (List.length (columns df) =? 0)%nat.

(** [df[c]] as the list of its values; [KeyError] when there is no
    such column. *)
Definition getitem (df : DataFrame) (c : string) : exn + list cell :=
  if str_in c (columns df)
  then inr (map (fun r => get_cell (columns df) r c) (rows df))
  else inl (Exception "KeyError" ("'" ++ c ++ "'")).

(** [series.isin(values)] for a set of strings. *)
Definition isin (col : list cell) (values : list string) : list bool :=
  map (fun v => match v with Str s => str_in s values | _ => false end) col.

(** [df[mask]]: the rows whose mask entry is true, labels kept. *)
Fixpoint select (rs : list Row) (mask : list bool) : list Row :=
  match rs, mask with
  | r :: rs', b :: mask' => if b then r :: select rs' mask' else select rs' mask'
  | _, _ => []
  end.

Definition getitem_mask (df : DataFrame) (mask : list bool) : DataFrame :=
  mkDF (columns df) (select (rows df) mask).

(** Rebuild a row over the column list [cols'], taking each cell from
    [f]. *)
Definition rebuild (cols' : list string) (f : string -> cell) (r : Row) : Row :=
  mkRow (idx r) (map f cols').

(** [df[c] = v] with a scalar [v]: the column is overwritten when it
    exists and appended otherwise. *)
Definition setitem (df : DataFrame) (c : string) (v : cell) : DataFrame :=
  let cols' := if str_in c (columns df) then columns df else columns df ++ [c] in
  mkDF cols'
       (map (fun r => rebuild cols'
                        (fun c' => if String.eqb c' c then v
                                   else get_cell (columns df) r c') r)
            (rows df)).

(** Union of the column labels of several frames, in order of first
    appearance. *)
Fixpoint union_columns (acc : list string) (cols : list string) : list string :=
  match cols with
  | [] => acc
  | c :: t => if str_in c acc then union_columns acc t
              else union_columns (acc ++ [c]) t
  end.

Definition all_columns (dfs : list DataFrame) : list string :=
  fold_left (fun acc df => union_columns acc (columns df)) dfs [].

(** Rows of [df] laid out over [cols']; a column [df] lacks is null. *)
Definition reindex_columns (cols' : list string) (df : DataFrame) : list Row :=
  map (fun r => rebuild cols' (fun c => get_cell (columns df) r c) r) (rows df).

(** Relabel rows [start, start+1, ...]. *)
Fixpoint relabel (start : nat) (rs : list Row) : list Row :=
  match rs with
  | [] => []
  | r :: t => mkRow start (cells r) :: relabel (S start) t
  end.

(** [pd.concat(dfs, ignore_index=ignore_index)]. *)
Definition pd_concat (dfs : list DataFrame) (ignore_index : bool)
  : exn + DataFrame :=
  match dfs with
  | [] => inl (Exception "ValueError" "No objects to concatenate")
  | _ =>
    let cols' := all_columns dfs in
    let rs := flat_map (reindex_columns cols') dfs in
    inr (mkDF cols' (if ignore_index then relabel 0 rs else rs))
  end.

(** Order of group keys: numbers before strings, strings by code
    point. *)
Definition cell_leb (a b : cell) : bool :=
  match a, b with
  | NA, _ => true
  | _, NA => false
  | Num x, Num y => (x <=? y)%Z
  | Num _, Str _ => true
  | Str _, Num _ => false
  | Str s, Str t => String.leb s t
  end.

Fixpoint insert_sorted (k : cell) (l : list cell) : list cell :=
  match l with
  | [] => [k]
  | h :: t => if cell_leb k h then k :: l else h :: insert_sorted k t
  end.

Definition sort_keys (l : list cell) : list cell :=
  fold_right insert_sorted [] l.

(** The distinct non-null values of a column, sorted: the group keys
    of [groupby] (null keys are dropped, keys are sorted). *)
Definition group_keys (col : list cell) : list cell :=
  sort_keys (nodup cell_eq_dec (filter (fun v => negb (isna v)) col)).

(** [df.groupby(by)] iterated: one (key, sub-frame) per group, the
    sub-frame holding the rows with that key, in their order and with
    their labels. *)
Definition groupby (df : DataFrame) (by_ : string)
  : exn + list (cell * DataFrame) :=
  match getitem df by_ with
  | inl e => inl e
  | inr col =>
    inr (map (fun k =>
                (k, mkDF (columns df)
                         (filter (fun r => cell_eqb (get_cell (columns df) r by_) k)
                                 (rows df))))
             (group_keys col))
  end.

(** [df.groupby(by).size()]: the keys with their row counts. *)
Definition groupby_size (df : DataFrame) (by_ : string)
  : exn + list (cell * nat) :=
  match groupby df by_ with
  | inl e => inl e
  | inr gs => inr (map (fun g => (fst g, len (snd g))) gs)
  end.

(* ================================================================= *)
(** ** Spreadsheets and figures *)

(** One sheet as [to_excel] lays it out: a header line and the data
    lines below it. *)
Record Sheet : Set := mkSheet {
  sheet_name : cell;
  header : list cell;
  body : list (list cell)
}.

(** [df.to_excel(writer, sheet_name=name, index=index)]: with
    [index] the row labels fill a first, unnamed column. *)
Definition to_excel (df : DataFrame) (name : cell) (index : bool) : Sheet :=
  let normal r := map (fun c => get_cell (columns df) r c) (columns df) in
  if index
  then mkSheet name (Str "" :: map Str (columns df))
               (map (fun r => Num (Z.of_nat (idx r)) :: normal r) (rows df))
  else mkSheet name (map Str (columns df)) (map normal (rows df)).

(** What the script leaves on disk. *)
Inductive artifact : Set :=
| Workbook (sheets : list Sheet)
| Figure (scatter_points : list (cell * nat)) (line_points : list (cell * nat)).

(* ================================================================= *)
(** ** The file system *)

(** A regular file carries what
    [pd.read_csv(path, sep='\t', comment='#', encoding='utf-8',
                 on_bad_lines='skip', low_memory=False)]
    does on it: the frame parsed, or the exception raised. *)
#[warnings="-register-all"]
Inductive node : Set :=
| File (parsed : exn + DataFrame)
| Dir (entries : list (string * node)).

Record filesystem : Set := mkFS {
  root : node;
  cwd : list string   (* the working directory, as names from the root *)
}.

Fixpoint assoc (name : string) (es : list (string * node)) : option node :=
  match es with
  | [] => None
  | (n, x) :: t => if String.eqb name n then Some x else assoc name t
  end.

(** The node reached from [n] through the names [p]. *)
Fixpoint lookup (p : list string) (n : node) : option node :=
  match p with
  | [] => Some n
  | c :: p' =>
    match n with
    | Dir es => match assoc c es with
                | Some x => lookup p' x
                | None => None
                end
    | File _ => None
    end
  end.

(** The components of a path between its slashes. *)
Fixpoint split_sep (s : string) : list string :=
  match s with
  | EmptyString => [EmptyString]
  | String c s' =>
    if Ascii.eqb c "/"%char then EmptyString :: split_sep s'
    else match split_sep s' with
         | h :: t => String c h :: t
         | [] => [String c EmptyString]
         end
  end.

(** Path resolution, component by component: every component is
    looked up in a directory that exists. *)
Fixpoint resolve_from (r : node) (cur : list string) (comps : list string)
  : option (list string) :=
  match comps with
  | [] => Some cur
  | c :: rest =>
    match lookup cur r with
    | Some (Dir es) =>
      if String.eqb c "" || String.eqb c "." then resolve_from r cur rest
      else if String.eqb c ".." then resolve_from r (removelast cur) rest
      else match assoc c es with
           | Some _ => resolve_from r (cur ++ [c]) rest
           | None => None
           end
    | _ => None
    end
  end.

Definition resolve (fs : filesystem) (path : string) : option node :=
  if String.eqb path "" then None
  else
    let start := if str_startswith path "/" then [] else cwd fs in
    match resolve_from (root fs) start (split_sep path) with
    | Some p => lookup p (root fs)
    | None => None
    end.

(** [os.path.join(a, b)]. *)
Definition os_path_join (a b : string) : string :=
  if str_startswith b "/" then b
  else if String.eqb a "" || str_endswith a "/" then a ++ b
  else a ++ "/" ++ b.

Definition os_path_exists (fs : filesystem) (p : string) : bool :=
  match resolve fs p with Some _ => true | None => false end.

Definition os_path_isdir (fs : filesystem) (p : string) : bool :=
  match resolve fs p with Some (Dir _) => true | _ => false end.

(** [os.scandir(p)]: the entries of a directory. *)
Definition os_scandir (fs : filesystem) (p : string)
  : exn + list (string * node) :=
  match resolve fs p with
  | Some (Dir es) => inr es
  | Some (File _) =>
    inl (Exception "NotADirectoryError" ("[Errno 20] Not a directory: '" ++ p ++ "'"))
  | None =>
    inl (Exception "FileNotFoundError"
                   ("[Errno 2] No such file or directory: '" ++ p ++ "'"))
  end.

(** [os.listdir(p)]. *)
Definition os_listdir (fs : filesystem) (p : string) : exn + list string :=
  match os_scandir fs p with
  | inl e => inl e
  | inr es => inr (map fst es)
  end.

Definition is_dir (n : node) : bool :=
  match n with Dir _ => true | File _ => false end.

Definition dirnames (es : list (string * node)) : list string :=
  map fst (filter (fun e => is_dir (snd e)) es).

Definition filenames (es : list (string * node)) : list string :=
  map fst (filter (fun e => negb (is_dir (snd e))) es).

(** The triples [os.walk] yields below a directory node, top-down. *)
Fixpoint walk_node (top : string) (n : node)
  : list (string * list string * list string) :=
  match n with
  | File _ => []
  | Dir es =>
    (top, dirnames es, filenames es)
      :: (fix walk_entries (l : list (string * node)) :=
            match l with
            | [] => []
            | (name, child) :: l' =>
              walk_node (os_path_join top name) child ++ walk_entries l'
            end) es
  end.

(** [os.walk(top)] with its default [onerror=None]: a [top] that
    cannot be listed yields nothing. *)
Definition os_walk (fs : filesystem) (top : string)
  : list (string * list string * list string) :=
  match os_scandir fs top with
  | inl _ => []
  | inr es => walk_node top (Dir es)
  end.

(** [pd.read_csv] with the script's arguments. *)
Definition pd_read_csv (fs : filesystem) (p : string) : exn + DataFrame :=
  match resolve fs p with
  | Some (File parsed) => parsed
  | Some (Dir _) =>
    inl (Exception "IsADirectoryError" ("[Errno 21] Is a directory: '" ++ p ++ "'"))
  | None =>
    inl (Exception "FileNotFoundError"
                   ("[Errno 2] No such file or directory: '" ++ p ++ "'"))
  end.

(* ================================================================= *)
(** ** Effects: standard output, the random generator, files written *)

(** The generator behind [random]: a stream of raw draws and a
    cursor. *)
Record rng : Type := mkRng { raw : nat -> nat; pos : nat }.

Record state : Type := mkState {
  stdout : list string;               (* the lines printed so far *)
  gen : rng;
  disk : list (string * artifact)     (* files written so far *)
}.

(** A Python computation: it ends with a value or with an exception,
    and in both cases leaves a state. *)
Definition M (A : Type) : Type := state -> (exn + A) * state.

Definition ret {A} (a : A) : M A := fun s => (inr a, s).

Definition bind {A B} (m : M A) (k : A -> M B) : M B :=
  fun s => match m s with
           | (inl e, s') => (inl e, s')
           | (inr a, s') => k a s'
           end.

Definition raise {A} (e : exn) : M A := fun s => (inl e, s).

Definition lift {A} (r : exn + A) : M A := fun s => (r, s).

Notation "x <- m ;; k" := (bind m (fun x => k))
  (at level 61, m at next level, right associativity).
Notation "m ;;; k" := (bind m (fun _ => k))
  (at level 61, right associativity).

(** [try: body  except Exception as e: handler e]. *)
Definition try_except {A} (body : M A) (handler : exn -> M A) : M A :=
  fun s => match body s with
           | (inl e, s') => handler e s'
           | (inr a, s') => (inr a, s')
           end.

Definition print (line : string) : M unit :=
  fun s => (inr tt, mkState (stdout s ++ [line]) (gen s) (disk s)).

Definition write_file (name : string) (a : artifact) : M unit :=
  fun s => (inr tt, mkState (stdout s) (gen s) (disk s ++ [(name, a)])).

(** [with pd.ExcelWriter(output_file, engine='xlsxwriter') as writer:
    body]: the writer is closed, and the file written, however the
    block ends; a block that raises before its first sheet leaves a
    workbook without any of its sheets. *)
Definition with_ExcelWriter (output_file : string) (body : M (list Sheet))
  : M unit :=
  fun s =>
    match body s with
    | (inr sheets, s') => write_file output_file (Workbook sheets) s'
    | (inl e, s') => (inl e, snd (write_file output_file (Workbook []) s'))
    end.

(** [for x in l: acc = body x acc]. *)
Fixpoint for_each {A B} (l : list A) (body : A -> B -> M B) (acc : B) : M B :=
  match l with
  | [] => ret acc
  | x :: l' => acc' <- body x acc ;; for_each l' body acc'
  end.

(** [random.randbelow(n)]. *)
Definition randbelow (n : nat) (g : rng) : nat * rng :=
  (raw g (pos g) mod n, mkRng (raw g) (S (pos g))).

(** The selection loop of [random.sample]: draw a position of the
    pool, take its element, move the last element of the pool into
    the hole and shorten the pool by one. *)
Fixpoint sample_loop (k : nat) (pool : list string) (g : rng)
  : list string * rng :=
  match k with
  | 0 => ([], g)
  | S k' =>
    let n := List.length pool in
    let (j, g1) := randbelow n g in
    let x := nth j pool "" in
    let pool' := firstn (n - 1) (list_set j (last pool "") pool) in
    let (rest, g2) := sample_loop k' pool' g1 in
    (x :: rest, g2)
  end.

(** [random.sample(population, k)]. *)
Definition random_sample (population : list string) (k : nat)
  : M (list string) :=
  fun s =>
    if (List.length population <? k)%nat
    then (inl (Exception "ValueError"
                         "Sample larger than population or is negative"), s)
    else let (sel, g') := sample_loop k population (gen s) in
         (inr sel, mkState (stdout s) g' (disk s)).

(* ================================================================= *)
(** ** The script *)

Definition BASE_FOLDER : string := "./grade_generalised".
Definition stages : list string := ["StageI"; "StageII"; "StageIII"; "StageIV"].
Definition samples_per_stage : nat := 4.

Definition CODING_VARIANTS : list string :=
  ["Missense_Mutation"; "Nonsense_Mutation";
   "Frame_Shift_Ins"; "Frame_Shift_Del"; "Splice_Site";
   "Translation_Start_Site"; "In_Frame_Del"; "In_Frame_Ins"].

Definition required_columns : list string :=
  ["Hugo_Symbol"; "Variant_Classification"].

Section Script.

(** The file tree the script runs on. *)
Variable fs : filesystem.

(** Whether this process iterates the set [required_columns] with
    [Hugo_Symbol] first (string hashes are salted per process). *)
Variable hugo_first : bool.

(** The text [f"{required_columns}"] gives. *)
Definition repr_required_columns : string :=
  if hugo_first then "{'Hugo_Symbol', 'Variant_Classification'}"
  else "{'Variant_Classification', 'Hugo_Symbol'}".

Definition find_maf_files (directory : string) : M (list string) :=
  for_each (os_walk fs directory)
    (fun '(root, _, files) maf_files =>
       ret (maf_files ++
            map (os_path_join root)
                (filter (fun f => str_endswith f ".maf") files)))
    [].

Definition read_maf_file (maf_path : string) : M (option DataFrame) :=
  try_except
    (maf_df <- lift (pd_read_csv fs maf_path) ;;
     if negb (issubset required_columns (columns maf_df)) then
       print ("Skipping " ++ maf_path ++ ": Missing required columns "
                ++ repr_required_columns) ;;;
       ret None
     else
       col <- lift (getitem maf_df "Variant_Classification") ;;
       let maf_df := getitem_mask maf_df (isin col CODING_VARIANTS) in
       ret (if negb (empty maf_df) then Some maf_df else None))
    (fun e =>
       print ("Skipping " ++ maf_path ++ " due to error: " ++ exn_msg e) ;;;
       ret None).

(** Lines 51 to 56 of [get_sample_mutation_data]: the candidate
    cases of a stage directory and the cases drawn from them. *)
Definition select_cases (stage_dir : string) : M (list string) :=
  names <- lift (os_listdir fs stage_dir) ;;
  let case_folders :=
    filter (fun f => os_path_isdir fs (os_path_join stage_dir f)) names in
  (if (List.length case_folders <? samples_per_stage)%nat then
     print ("Warning: Only " ++ str_of_nat (List.length case_folders)
              ++ " samples found in " ++ stage_dir ++ ", but "
              ++ str_of_nat samples_per_stage ++ " required.")
   else ret tt) ;;;
  random_sample case_folders (Nat.min samples_per_stage (List.length case_folders)).

(** Lines 57 to 69: every file of every selected case is read, and
    what is read is stamped and collected. *)
Definition collect_cases (stage stage_dir : string) (selected_cases : list string)
  : M (list DataFrame) :=
  for_each selected_cases
    (fun case mutation_data =>
       let case_path := os_path_join stage_dir case in
       maf_files <- find_maf_files case_path ;;
       for_each maf_files
         (fun maf_file mutation_data =>
            maf_df <- read_maf_file maf_file ;;
            match maf_df with
            | Some maf_df =>
              let maf_df := setitem maf_df "Case" (Str case) in
              let maf_df := setitem maf_df "Stage" (Str stage) in
              ret (mutation_data ++ [maf_df])
            | None => ret mutation_data
            end)
         mutation_data)
    [].

Definition get_sample_mutation_data (stage : string) : M (list DataFrame) :=
  let stage_dir := os_path_join BASE_FOLDER stage in
  if negb (os_path_exists fs stage_dir) then
    print ("Warning: " ++ stage_dir ++ " does not exist.") ;;;
    ret []
  else
    selected_cases <- select_cases stage_dir ;;
    collect_cases stage stage_dir selected_cases.

(** The body of the [with pd.ExcelWriter(...)] block: one sheet per
    group, appended to the writer's sheets. *)
Definition write_sheets (groups : list (cell * DataFrame)) : M (list Sheet) :=
  for_each groups
    (fun '(stage, stage_df) sheets =>
       let sheets := sheets ++ [to_excel stage_df stage false] in
       print ("Saved " ++ str_of_nat (len stage_df) ++ " records to sheet: "
                ++ str_of_cell stage) ;;;
       ret sheets)
    [].

Definition save_to_excel (df : DataFrame) (output_file : string) : M unit :=
  with_ExcelWriter output_file
    (groups <- lift (groupby df "Stage") ;;
     write_sheets groups).

Definition visualize_mutation_cnv (df : DataFrame) : M unit :=
  if negb (str_in "Variant_Classification" (columns df))
     || negb (str_in "Stage" (columns df))
  then raise (Exception "ValueError"
                "The dataset must have 'Variant_Classification' and 'Stage' columns.")
  else
    mutation_counts <- lift (groupby_size df "Stage") ;;
    write_file "mutation_frequency_scatter_filtered.png"
               (Figure mutation_counts mutation_counts).

(** Lines 99 to 103 of [main]. *)
Definition collect_all : M (list DataFrame) :=
  for_each stages
    (fun stage all_mutation_data =>
       mutation_data <- get_sample_mutation_data stage ;;
       ret (all_mutation_data ++ mutation_data))
    [].

Definition main : M unit :=
  all_mutation_data <- collect_all ;;
  match all_mutation_data with
  | _ :: _ =>
    combined_df <- lift (pd_concat all_mutation_data true) ;;
    save_to_excel combined_df "mutation_cnv_filtered.xlsx" ;;;
    visualize_mutation_cnv combined_df
  | [] => print "No coding mutation data collected! Ensure MAF files exist."
  end.

End Script.

(* ================================================================= *)
(** ** Vocabulary of the properties *)

(** The state after some more lines were printed. *)
Definition printed (s : state) (lines : list string) : state :=
  mkState (stdout s ++ lines) (gen s) (disk s).

(** A state to run, from scratch, a computation that only prints. *)
Definition blank : state := mkState [] (mkRng (fun _ => 0) 0) [].

(** The computation [m] ends normally with the value [a] after
    printing [lines], whatever the state it starts from, and touches
    neither the generator nor the disk. *)
Definition settles {A} (m : M A) (a : A) (lines : list string) : Prop :=
  forall s, m s = (inr a, printed s lines).

Definition total {A} (m : M A) : Prop :=
  exists a lines, settles m a lines.

(** [sub] occurs in [s]. *)
Definition occurs (sub s : string) : Prop :=
  exists pre post, s = (pre ++ sub ++ post)%string.

(** The coding variants among the rows of a frame. *)
Definition is_coding (cols : list string) (r : Row) : bool :=
  match get_cell cols r "Variant_Classification" with
  | Str v => str_in v CODING_VARIANTS
  | _ => false
  end.

(** *** The file locator *)

(** A regular file named [name] lies in the directory of path [dir],
    at some depth below the directory node [n] of path [top]. *)
Inductive has_file : string -> node -> string -> string -> Prop :=
| has_file_here top es name parsed :
    In (name, File parsed) es ->
    has_file top (Dir es) top name
| has_file_below top es d child dir name :
    In (d, child) es ->
    has_file (os_path_join top d) child dir name ->
    has_file top (Dir es) dir name.

(** The [.maf] paths one triple of [os.walk] contributes. *)
Definition maf_of_triple (t : string * list string * list string) : list string :=
  let '(root, _, files) := t in
  map (os_path_join root) (filter (fun f => str_endswith f ".maf") files).

Definition walk_entries (top : string) (es : list (string * node))
  : list (string * list string * list string) :=
  flat_map (fun e => walk_node (os_path_join top (fst e)) (snd e)) es.

Section node_induction.
Variable P : node -> Prop.
Hypothesis P_file : forall parsed, P (File parsed).
Hypothesis P_dir : forall es, Forall (fun e => P (snd e)) es -> P (Dir es).

Fixpoint node_nested_ind (n : node) : P n :=
  match n with
  | File parsed => P_file parsed
  | Dir es =>
    P_dir ((fix entries_ind (l : list (string * node))
              : Forall (fun e => P (snd e)) l :=
              match l with
              | [] => Forall_nil _
              | (name, child) :: l' =>
                Forall_cons (name, child) (node_nested_ind child) (entries_ind l')
              end) es)
  end.
End node_induction.

(** *** The record reader *)

(** The rows [read_maf_file] keeps of a parsed frame. *)
Definition coding_part (df : DataFrame) : DataFrame :=
  mkDF (columns df) (filter (is_coding (columns df)) (rows df)).

(** What [read_maf_file] returns and prints, read off its steps. *)
Definition maf_read (fs : filesystem) (p : string) : option DataFrame :=
  match pd_read_csv fs p with
  | inl _ => None
  | inr df =>
    if issubset required_columns (columns df)
    then if empty (coding_part df) then None else Some (coding_part df)
    else None
  end.

Definition maf_lines (fs : filesystem) (hugo_first : bool) (p : string)
  : list string :=
  match pd_read_csv fs p with
  | inl e => [("Skipping " ++ p ++ " due to error: " ++ exn_msg e)%string]
  | inr df =>
    if issubset required_columns (columns df) then []
    else [("Skipping " ++ p ++ ": Missing required columns "
             ++ repr_required_columns hugo_first)%string]
  end.

(** The table a read frame becomes once stamped with its case and
    stage. *)
Definition stamp (case stage : string) (df : DataFrame) : DataFrame :=
  setitem (setitem df "Case" (Str case)) "Stage" (Str stage).

Definition stamped_tables (fs : filesystem) (stage case : string)
           (maf_files : list string) : list DataFrame :=
  flat_map (fun f => match maf_read fs f with
                     | Some df => [stamp case stage df]
                     | None => []
                     end) maf_files.

(** *** Data-frame operations *)

Definition list_sum (l : list nat) : nat := fold_right Nat.add 0 l.

(** Total number of rows of a list of frames. *)
Definition total_rows (dfs : list DataFrame) : nat := list_sum (map len dfs).

(** The rows of a frame whose [by_] cell is [k]. *)
Definition rows_with (df : DataFrame) (by_ : string) (k : cell) : list Row :=
  filter (fun r => cell_eqb (get_cell (columns df) r by_) k) (rows df).

(** *** The stage sampler: collecting the tables *)

(** The files [find_maf_files] returns for a directory, and the number
    of rows [read_maf_file] returns for a file ([None] counts zero). *)
Definition files_found (fs : filesystem) (directory : string) : list string :=
  match fst (find_maf_files fs directory blank) with
  | inr l => l
  | inl _ => []
  end.

Definition rows_returned (fs : filesystem) (hugo_first : bool) (p : string) : nat :=
  match fst (read_maf_file fs hugo_first p blank) with
  | inr (Some df) => len df
  | _ => 0
  end.

(** The cases [get_sample_mutation_data stage] selects when it is
    called in state [s]. *)
Definition stage_selection (fs : filesystem) (stage : string) (s : state)
  : list string :=
  let stage_dir := os_path_join BASE_FOLDER stage in
  if negb (os_path_exists fs stage_dir) then []
  else match fst (select_cases fs stage_dir s) with
       | inr selected_cases => selected_cases
       | inl _ => []
       end.

(** The selections of a run over the stages [sts] that starts in
    state [s]: each stage is handled in the state the previous one
    left. *)
Fixpoint selections_from (fs : filesystem) (hugo_first : bool)
         (sts : list string) (s : state) : list (string * list string) :=
  match sts with
  | [] => []
  | stage :: rest =>
    (stage, stage_selection fs stage s)
      :: selections_from fs hugo_first rest
           (snd (get_sample_mutation_data fs hugo_first stage s))
  end.

(** Sum, over the given selections, of the row counts [read_maf_file]
    returns for every file of every selected case. *)
Definition selection_rows (fs : filesystem) (hugo_first : bool)
           (sel : string * list string) : nat :=
  list_sum
    (map (fun case =>
            list_sum
              (map (rows_returned fs hugo_first)
                   (files_found fs
                      (os_path_join (os_path_join BASE_FOLDER (fst sel)) case))))
         (snd sel)).

Definition filtered_rows (fs : filesystem) (hugo_first : bool)
           (sels : list (string * list string)) : nat :=
  list_sum (map (selection_rows fs hugo_first) sels).

(** The tables one stage contributes, given its selected cases. *)
Definition stage_tables (fs : filesystem) (stage : string)
           (selected_cases : list string) : list DataFrame :=
  flat_map (fun case =>
              stamped_tables fs stage case
                (files_found fs
                   (os_path_join (os_path_join BASE_FOLDER stage) case)))
           selected_cases.

(** A table as the sampler stamps it: the three columns are there,
    [Case] holds a case name, [Stage] holds [stage] and
    [Variant_Classification] a coding variant, in every row. *)
Definition stamped_for (stage : string) (df : DataFrame) : Prop :=
  In "Case" (columns df) /\ In "Stage" (columns df) /\
  In "Variant_Classification" (columns df) /\
  forall r, In r (rows df) ->
    (exists case, get_cell (columns df) r "Case" = Str case) /\
    get_cell (columns df) r "Stage" = Str stage /\
    (exists v, In v CODING_VARIANTS /\
               get_cell (columns df) r "Variant_Classification" = Str v).

(** The invariant of the combined table, row by row. *)
Definition row_invariant (cols : list string) (r : Row) : Prop :=
  isna (get_cell cols r "Case") = false /\
  isna (get_cell cols r "Stage") = false /\
  exists v, In v CODING_VARIANTS /\
            get_cell cols r "Variant_Classification" = Str v.

Definition table_invariant (df : DataFrame) : Prop :=
  forall r, In r (rows df) -> row_invariant (columns df) r.

(** *** The exporter and the visualizer *)

(** The group keys of the [Stage] column, the sheets written for
    them and the points plotted for them. *)
Definition stage_keys (df : DataFrame) : list cell :=
  group_keys (map (fun r => get_cell (columns df) r "Stage") (rows df)).

Definition stage_sheets (df : DataFrame) : list Sheet :=
  map (fun k => to_excel (mkDF (columns df) (rows_with df "Stage" k)) k false)
      (stage_keys df).

Definition saved_lines (df : DataFrame) : list string :=
  map (fun k => ("Saved " ++ str_of_nat (List.length (rows_with df "Stage" k))
                   ++ " records to sheet: " ++ str_of_cell k)%string)
      (stage_keys df).

Definition stage_counts (df : DataFrame) : list (cell * nat) :=
  map (fun k => (k, List.length (rows_with df "Stage" k))) (stage_keys df).

(** The cells of a row, column by column. *)
Definition cells_of (cols : list string) (r : Row) : list cell :=
  map (fun c => get_cell cols r c) cols.

Definition sheet_of_group (g : cell * DataFrame) : Sheet :=
  to_excel (snd g) (fst g) false.

Definition line_of_group (g : cell * DataFrame) : string :=
  "Saved " ++ str_of_nat (len (snd g)) ++ " records to sheet: "
    ++ str_of_cell (fst g).

(** A computation that writes no file. *)
Definition keeps_disk {A} (m : M A) : Prop :=
  forall s, disk (snd (m s)) = disk s.

(** *** [random.sample]: selection by drawn positions *)





(** *** Path resolution below a directory *)

Fixpoint has_slash (s : string) : bool :=
  match s with
  | EmptyString => false
  | String c s' => Ascii.eqb c "/"%char || has_slash s'
  end.

(** A name a directory entry can bear. *)
Definition valid_name (n : string) : bool :=
  negb (String.eqb n "") && negb (String.eqb n ".")
  && negb (String.eqb n "..") && negb (has_slash n).

(** Below a node, every directory has entries of distinct, proper
    names. *)
Fixpoint wf_names (n : node) : Prop :=
  match n with
  | File _ => True
  | Dir es =>
    NoDup (map fst es) /\
    (forall name, In name (map fst es) -> valid_name name = true) /\
    (fix all_wf (l : list (string * node)) : Prop :=
       match l with
       | [] => True
       | (_, child) :: l' => wf_names child /\ all_wf l'
       end) es
  end.

(** *** The stage sampler: selecting the cases *)


(** *** A sample tree *)

Module Sample.

Definition tp53 : DataFrame :=
  mkDF ["Hugo_Symbol"; "Variant_Classification"; "Start_Position"]
       [mkRow 0 [Str "TP53"; Str "Missense_Mutation"; Num 7578406];
        mkRow 1 [Str "KRAS"; Str "Silent"; Num 25398284];
        mkRow 2 [Str "EGFR"; Str "Splice_Site"]].

Definition with_case : DataFrame :=
  mkDF ["Variant_Classification"; "Hugo_Symbol"; "Case"]
       [mkRow 0 [Str "Nonsense_Mutation"; Str "CDKN2A"; Str "elsewhere"]].

Definition no_classification : DataFrame :=
  mkDF ["Hugo_Symbol"] [mkRow 0 [Str "TP53"]].

Definition silent_only : DataFrame :=
  mkDF ["Hugo_Symbol"; "Variant_Classification"]
       [mkRow 0 [Str "TTN"; Str "Silent"]; mkRow 1 [Str "MUC16"; NA]].

Definition case_a : node :=
  Dir [("a.maf", File (inr tp53));
       ("sub", Dir [("b.maf", File (inr with_case));
                    ("notes.txt", File (inr tp53));
                    ("x.maf", Dir [("c.maf", File (inr no_classification))])]);
       ("bad.maf", File (inl (Exception "ParserError" "Error tokenizing data")))].

Definition case_b : node := Dir [("d.maf", File (inr silent_only))].

Definition stage_one : list (string * node) :=
  [("caseA", case_a); ("caseB", case_b); ("README", File (inr tp53))].

Definition stage_two : list (string * node) :=
  [("c1", case_a); ("c2", case_b); ("c3", case_b);
   ("c4", case_a); ("c5", case_a); ("c6", case_b); ("manifest.txt", File (inr tp53))].

Definition fs : filesystem :=
  mkFS (Dir [("home",
              Dir [("grade_generalised",
                    Dir [("StageI", Dir stage_one);
                         ("StageII", Dir stage_two)])])])
       ["home"].

Definition s0 : state := mkState [] (mkRng (fun n => 7 * n + 3) 0) [].

(** The tables a run of [main] collects from [s0], and the state it
    is in then. *)
Definition collected : list DataFrame :=
  Eval vm_compute in
    match fst (collect_all fs true s0) with
    | inr l => l
    | inl _ => []
    end.

Definition s1 : state := snd (collect_all fs true s0).

(** The tables [get_sample_mutation_data] returns for the first stage,
    from [s0]. *)
Definition stage_one_tables : list DataFrame :=
  Eval vm_compute in
    match fst (get_sample_mutation_data fs true "StageI" s0) with
    | inr l => l
    | inl _ => []
    end.

End Sample.

(** *** Paths as lists of names *)

(** The path reached from [top] by joining the names of [l] one after
    the other. *)
Definition joins (top : string) (l : list string) : string :=
  fold_left os_path_join l top.

(** The [.maf] files at and below a node, each as the list of names
    that leads to it, in the order [os.walk] meets them. *)
Fixpoint rel_files (n : node) : list (list string) :=
  match n with
  | File _ => []
  | Dir es =>
    map (fun name => [name])
        (filter (fun f => str_endswith f ".maf") (filenames es))
    ++ (fix rel_entries (l : list (string * node)) :=
          match l with
          | [] => []
          | (d, child) :: l' => map (cons d) (rel_files child) ++ rel_entries l'
          end) es
  end.

Definition rel_entries (es : list (string * node)) : list (list string) :=
  flat_map (fun e => map (cons (fst e)) (rel_files (snd e))) es.

(* ================================================================= *)
(** ** Strings, lists and the monad *)

Lemma str_app_assoc (a b c : string) : ((a ++ b) ++ c = a ++ (b ++ c))%string.
Proof. induction a as [| ch a IH]; simpl; [reflexivity | now rewrite IH]. Qed.

Lemma filter_none {A} (f : A -> bool) (l : list A) :
  (forall x, In x l -> f x = false) -> filter f l = [].
Proof.
  induction l as [| a l IH]; intros H; simpl; [reflexivity |].
  rewrite (H a (or_introl eq_refl)). apply IH. intros x Hx. apply H. now right.
Qed.

Lemma str_in_iff x l : str_in x l = true <-> In x l.
Proof.
  unfold str_in. rewrite existsb_exists. split.
  - intros [y [Hy E]]. apply String.eqb_eq in E. now subst.
  - intros H. exists x. split; [assumption | apply String.eqb_refl].
Qed.

Lemma str_in_false x l : str_in x l = false <-> ~ In x l.
Proof.
  rewrite <- str_in_iff. destruct (str_in x l); split; congruence.
Qed.

Lemma issubset_iff a b : issubset a b = true <-> incl a b.
Proof.
  unfold issubset. rewrite forallb_forall. unfold incl.
  split; intros H x Hx; apply str_in_iff; auto.
Qed.

Lemma printed_nil s : printed s [] = s.
Proof. destruct s. unfold printed. simpl. now rewrite app_nil_r. Qed.

Lemma printed_printed s l1 l2 : printed (printed s l1) l2 = printed s (l1 ++ l2).
Proof. unfold printed. simpl. now rewrite app_assoc. Qed.

Lemma settles_ret {A} (a : A) : settles (ret a) a [].
Proof. intros s. unfold ret. now rewrite printed_nil. Qed.

Lemma settles_lift {A} (a : A) : settles (lift (inr a)) a [].
Proof. intros s. unfold lift. now rewrite printed_nil. Qed.

Lemma settles_print line : settles (print line) tt [line].
Proof. intros s. reflexivity. Qed.

Lemma settles_bind {A B} (m : M A) (k : A -> M B) a l1 b l2 :
  settles m a l1 -> settles (k a) b l2 -> settles (bind m k) b (l1 ++ l2).
Proof.
  intros Hm Hk s. unfold bind. rewrite (Hm s), (Hk (printed s l1)).
  now rewrite printed_printed.
Qed.

Lemma total_ret {A} (a : A) : total (ret a).
Proof. exists a, []. apply settles_ret. Qed.

Lemma total_print line : total (print line).
Proof. exists tt, [line]. apply settles_print. Qed.

Lemma total_bind {A B} (m : M A) (k : A -> M B) :
  total m -> (forall a, total (k a)) -> total (bind m k).
Proof.
  intros [a [l1 Hm]] Hk. destruct (Hk a) as [b [l2 Hb]].
  exists b, (l1 ++ l2). eapply settles_bind; eauto.
Qed.

Lemma total_for_each {A B} (l : list A) (body : A -> B -> M B) :
  (forall x acc, total (body x acc)) ->
  forall acc, total (for_each l body acc).
Proof.
  intros Hb. induction l as [| x l IH]; intros acc; simpl.
  - apply total_ret.
  - apply total_bind; auto.
Qed.

(** What a total computation returns and prints can be read off its
    run from the blank state. *)
Lemma settles_blank {A} (m : M A) a lines :
  settles m a lines -> fst (m blank) = inr a /\ stdout (snd (m blank)) = lines.
Proof. intros H. rewrite (H blank). simpl. auto. Qed.

Lemma settles_fun {A} (m : M A) a1 l1 a2 l2 :
  settles m a1 l1 -> settles m a2 l2 -> a1 = a2 /\ l1 = l2.
Proof.
  intros H1 H2. apply settles_blank in H1, H2.
  destruct H1 as [E1 F1], H2 as [E2 F2]. split; congruence.
Qed.

Create HintDb total.
#[local] Hint Resolve total_ret total_print total_bind total_for_each : total.

(* ================================================================= *)
(** ** The file locator *)

Lemma walk_node_dir top es :
  walk_node top (Dir es) = (top, dirnames es, filenames es) :: walk_entries top es.
Proof.
  simpl. f_equal. unfold walk_entries.
  induction es as [| [name child] es IH]; simpl; [reflexivity | now rewrite IH].
Qed.

Lemma in_filenames name es :
  In name (filenames es) <-> exists parsed, In (name, File parsed) es.
Proof.
  unfold filenames. rewrite in_map_iff. split.
  - intros [[n x] [E H]]. simpl in E. subst n.
    apply filter_In in H. destruct H as [H D]. simpl in D.
    destruct x as [parsed | es']; [| discriminate]. now exists parsed.
  - intros [parsed H]. exists (name, File parsed). split; [reflexivity |].
    apply filter_In. split; [assumption | reflexivity].
Qed.

Lemma has_file_dir_inv top es dir name :
  has_file top (Dir es) dir name <->
  (dir = top /\ exists parsed, In (name, File parsed) es) \/
  (exists d child, In (d, child) es /\ has_file (os_path_join top d) child dir name).
Proof.
  split.
  - intros H. inversion H; subst.
    + left. split; [reflexivity | eauto].
    + right. eauto.
  - intros [[E [parsed H]] | [d [child [H1 H2]]]].
    + subst. eapply has_file_here; eauto.
    + eapply has_file_below; eauto.
Qed.

(** [os.walk] visits exactly the directories that hold the files
    [has_file] describes. *)
Lemma walk_node_files n :
  forall top dir name,
    (exists dirs files, In (dir, dirs, files) (walk_node top n) /\ In name files)
    <-> has_file top n dir name.
Proof.
  induction n as [parsed | es IH] using node_nested_ind; intros top dir name.
  - simpl. split.
    + intros [dirs [files [[] _]]].
    + intros H. inversion H.
  - rewrite walk_node_dir, has_file_dir_inv. split.
    + intros [dirs [files [[E | H] Hn]]].
      * injection E as E1 E2 E3. subst. left. split; [reflexivity |].
        now apply in_filenames.
      * right. unfold walk_entries in H. apply in_flat_map in H.
        destruct H as [[d child] [He Hw]]. simpl in Hw.
        exists d, child. split; [assumption |].
        rewrite Forall_forall in IH. apply (IH (d, child) He). eauto.
    + intros [[E [parsed H]] | [d [child [He Hf]]]].
      * subst. exists (dirnames es), (filenames es). split; [now left |].
        apply in_filenames. eauto.
      * rewrite Forall_forall in IH. apply (IH (d, child) He) in Hf.
        destruct Hf as [dirs [files [Hw Hn]]].
        exists dirs, files. split; [| assumption]. right.
        unfold walk_entries. apply in_flat_map. exists (d, child). auto.
Qed.

Lemma in_maf_of_triple p t :
  In p (maf_of_triple t) <->
  exists name, In name (snd t) /\ str_endswith name ".maf" = true
               /\ p = os_path_join (fst (fst t)) name.
Proof.
  destruct t as [[root dirs] files]. simpl. rewrite in_map_iff. split.
  - intros [name [E H]]. apply filter_In in H. destruct H. eauto.
  - intros [name [H [E Hp]]]. exists name. split; [auto |].
    apply filter_In. auto.
Qed.

Lemma find_maf_files_loop (l : list (string * list string * list string)) :
  forall acc,
    settles (for_each l
               (fun '(root, _, files) maf_files =>
                  ret (maf_files ++
                       map (os_path_join root)
                           (filter (fun f => str_endswith f ".maf") files)))
               acc)
            (acc ++ flat_map maf_of_triple l) [].
Proof.
  induction l as [| [[root dirs] files] l IH]; intros acc; simpl for_each.
  - simpl. rewrite app_nil_r. apply settles_ret.
  - change (@nil string) with (@nil string ++ @nil string).
    eapply settles_bind; [apply settles_ret |].
    simpl flat_map. rewrite app_assoc. apply IH.
Qed.

Lemma find_maf_files_settles fs directory :
  settles (find_maf_files fs directory)
          (flat_map maf_of_triple (os_walk fs directory)) [].
Proof.
  unfold find_maf_files.
  apply (find_maf_files_loop (os_walk fs directory) []).
Qed.

Lemma total_find_maf_files fs directory : total (find_maf_files fs directory).
Proof. eexists. eexists. apply find_maf_files_settles. Qed.

(** C10.  [find_maf_files] never raises and prints nothing: from any
    state and for any path it returns a list, and a path is in that
    list exactly when it is [os.path.join(dir, name)] for a regular
    file [name] ending in [.maf] that lies in a directory [dir] at any
    depth at or below the given one.  For a path that is no directory
    (absent, or a regular file) the list is empty. *)
Theorem find_maf_files_total_exact :
  forall fs directory,
  exists maf_files,
    (forall s, find_maf_files fs directory s = (inr maf_files, s)) /\
    (forall p,
        In p maf_files <->
        exists es dir name,
          os_scandir fs directory = inr es /\
          has_file directory (Dir es) dir name /\
          str_endswith name ".maf" = true /\
          p = os_path_join dir name) /\
    (forall e, os_scandir fs directory = inl e -> maf_files = []).
Proof.
  intros fs directory.
  exists (flat_map maf_of_triple (os_walk fs directory)). split; [| split].
  - intros s. rewrite (find_maf_files_settles fs directory s).
    now rewrite printed_nil.
  - intros p. rewrite in_flat_map. unfold os_walk.
    destruct (os_scandir fs directory) as [e | es].
    + split; [intros [t [[] _]] | intros [es [dir [name [E _]]]]; discriminate].
    + split.
      * intros [[[root dirs] files] [Hw Hp]].
        apply in_maf_of_triple in Hp. simpl in Hp.
        destruct Hp as [name [Hn [Hs Hp]]].
        exists es, root, name. repeat split; auto.
        apply walk_node_files. eauto.
      * intros [es' [dir [name [E [Hf [Hs Hp]]]]]].
        injection E as E. subst es'.
        apply walk_node_files in Hf. destruct Hf as [dirs [files [Hw Hn]]].
        exists (dir, dirs, files). split; [assumption |].
        apply in_maf_of_triple. simpl. eauto.
  - intros e E. unfold os_walk. now rewrite E.
Qed.

(* ================================================================= *)
(** ** The record reader *)

Lemma select_isin cols rs :
  select rs (isin (map (fun r => get_cell cols r "Variant_Classification") rs)
                  CODING_VARIANTS)
  = filter (is_coding cols) rs.
Proof.
  induction rs as [| r rs IH]; [reflexivity |].
  cbn [map isin select filter]. fold (isin (map (fun r => get_cell cols r "Variant_Classification") rs) CODING_VARIANTS).
  unfold is_coding at 1.
  destruct (get_cell cols r "Variant_Classification") as [| v | z];
    try destruct (str_in v CODING_VARIANTS); now rewrite IH.
Qed.

Lemma required_present cols :
  issubset required_columns cols = true <->
  In "Hugo_Symbol" cols /\ In "Variant_Classification" cols.
Proof.
  rewrite issubset_iff. unfold required_columns, incl. simpl. split.
  - intros H. split; apply H; auto.
  - intros [H1 H2] a [E | [E | []]]; now subst.
Qed.

Lemma read_maf_file_settles fs hugo_first p :
  settles (read_maf_file fs hugo_first p) (maf_read fs p) (maf_lines fs hugo_first p).
Proof.
  intros s. unfold read_maf_file, maf_read, maf_lines, try_except, bind, lift.
  destruct (pd_read_csv fs p) as [e | df]; [reflexivity |].
  destruct (issubset required_columns (columns df)) eqn:Hsub; simpl; [| reflexivity].
  apply required_present in Hsub. destruct Hsub as [_ Hvc].
  apply str_in_iff in Hvc. unfold getitem. rewrite Hvc. unfold ret.
  unfold getitem_mask. rewrite select_isin. fold (coding_part df).
  rewrite printed_nil. now destruct (empty (coding_part df)).
Qed.

Lemma total_read_maf_file fs hugo_first p : total (read_maf_file fs hugo_first p).
Proof. eexists. eexists. apply read_maf_file_settles. Qed.

Lemma total_collect_cases fs hugo_first stage stage_dir selected_cases :
  total (collect_cases fs hugo_first stage stage_dir selected_cases).
Proof.
  unfold collect_cases. apply total_for_each. intros case acc.
  apply total_bind; [apply total_find_maf_files |]. intros maf_files.
  apply total_for_each. intros f acc'.
  apply total_bind; [apply total_read_maf_file |].
  intros [df |]; apply total_ret.
Qed.


(** C7.  When the parsed file lacks [Hugo_Symbol] or
    [Variant_Classification], [read_maf_file] returns [None] and prints
    exactly one line, which names the path and the set of required
    columns; every required column the file lacks is named in it. *)
Theorem read_maf_file_missing_columns :
  forall fs hugo_first maf_path maf_df s,
    pd_read_csv fs maf_path = inr maf_df ->
    ~ In "Hugo_Symbol" (columns maf_df)
    \/ ~ In "Variant_Classification" (columns maf_df) ->
    let message :=
        ("Skipping " ++ maf_path ++ ": Missing required columns "
           ++ repr_required_columns hugo_first)%string in
    read_maf_file fs hugo_first maf_path s = (inr None, printed s [message]) /\
    (forall c, In c required_columns -> ~ In c (columns maf_df) ->
               occurs c message).
Proof.
  intros fs hugo_first maf_path maf_df s E Hmiss message. split.
  - rewrite (read_maf_file_settles fs hugo_first maf_path s).
    unfold maf_read, maf_lines. rewrite E.
    destruct (issubset required_columns (columns maf_df)) eqn:Hsub; [| reflexivity].
    apply required_present in Hsub. tauto.
  - intros c Hc _. unfold message, repr_required_columns, occurs.
    destruct Hc as [Hc | [Hc | []]]; subst c; destruct hugo_first.
    + exists ("Skipping " ++ maf_path ++ ": Missing required columns {'")%string,
             "', 'Variant_Classification'}".
      rewrite !str_app_assoc. reflexivity.
    + exists ("Skipping " ++ maf_path
                ++ ": Missing required columns {'Variant_Classification', '")%string,
             "'}".
      rewrite !str_app_assoc. reflexivity.
    + exists ("Skipping " ++ maf_path
                ++ ": Missing required columns {'Hugo_Symbol', '")%string,
             "'}".
      rewrite !str_app_assoc. reflexivity.
    + exists ("Skipping " ++ maf_path ++ ": Missing required columns {'")%string,
             "', 'Hugo_Symbol'}".
      rewrite !str_app_assoc. reflexivity.
Qed.

(** C6.  When the parsed file has both required columns and no row
    whose [Variant_Classification] is in the allow-list,
    [read_maf_file] returns [None] (and prints nothing). *)
Theorem read_maf_file_only_noncoding :
  forall fs hugo_first maf_path maf_df s,
    pd_read_csv fs maf_path = inr maf_df ->
    In "Hugo_Symbol" (columns maf_df) ->
    In "Variant_Classification" (columns maf_df) ->
    (forall r v, In r (rows maf_df) -> In v CODING_VARIANTS ->
                 get_cell (columns maf_df) r "Variant_Classification" <> Str v) ->
    read_maf_file fs hugo_first maf_path s = (inr None, s).
Proof.
  intros fs hugo_first maf_path maf_df s E Hh Hv Hnone.
  rewrite (read_maf_file_settles fs hugo_first maf_path s).
  unfold maf_read, maf_lines. rewrite E.
  assert (Hsub : issubset required_columns (columns maf_df) = true)
    by (apply required_present; auto).
  rewrite Hsub, printed_nil.
  assert (Hf : filter (is_coding (columns maf_df)) (rows maf_df) = []).
  { apply filter_none. intros r Hr. unfold is_coding.
    destruct (get_cell (columns maf_df) r "Variant_Classification") as [| v | z] eqn:Ec;
      try reflexivity.
    apply str_in_false. intros Hin. exact (Hnone r v Hr Hin Ec). }
  unfold empty, coding_part. simpl. now rewrite Hf.
Qed.

(* ================================================================= *)
(** ** Data-frame operations *)

Lemma list_sum_app l1 l2 : list_sum (l1 ++ l2) = list_sum l1 + list_sum l2.
Proof. induction l1 as [| a l1 IH]; simpl; [reflexivity | rewrite IH; lia]. Qed.

Lemma total_rows_app l1 l2 : total_rows (l1 ++ l2) = total_rows l1 + total_rows l2.
Proof. unfold total_rows. now rewrite map_app, list_sum_app. Qed.


Lemma col_index_map (f : string -> cell) c cols :
  In c cols ->
  exists i, col_index c cols = Some i /\ nth i (map f cols) NA = f c.
Proof.
  induction cols as [| h t IH]; intros H; [destruct H |].
  simpl. destruct (String.eqb c h) eqn:E.
  - apply String.eqb_eq in E. subst h. exists 0. auto.
  - destruct H as [H | H]; [subst h; rewrite String.eqb_refl in E; discriminate |].
    destruct (IH H) as [i [Hi Hn]]. rewrite Hi. exists (S i). auto.
Qed.

Lemma get_cell_rebuild cols f r c :
  In c cols -> get_cell cols (rebuild cols f r) c = f c.
Proof.
  intros H. unfold get_cell, rebuild. simpl.
  destruct (col_index_map f c cols H) as [i [Hi Hn]]. now rewrite Hi.
Qed.

Lemma get_cell_relabel_cells cols r r' c :
  cells r' = cells r -> get_cell cols r' c = get_cell cols r c.
Proof. intros E. unfold get_cell. now rewrite E. Qed.

Lemma setitem_columns df c v x :
  In x (columns (setitem df c v)) <-> In x (columns df) \/ x = c.
Proof.
  unfold setitem. simpl. destruct (str_in c (columns df)) eqn:E.
  - apply str_in_iff in E. split; [auto | intros [H | H]; subst; auto].
  - rewrite in_app_iff. simpl. intuition.
Qed.

Lemma setitem_len df c v : len (setitem df c v) = len df.
Proof. unfold len, setitem. simpl. apply length_map. Qed.

(** After [df[c] = v], column [c] holds [v] in every row and every
    other column holds what it held. *)
Lemma setitem_rows df c v r' :
  In r' (rows (setitem df c v)) ->
  exists r, In r (rows df) /\
    forall x, In x (columns (setitem df c v)) ->
      get_cell (columns (setitem df c v)) r' x
      = if String.eqb x c then v else get_cell (columns df) r x.
Proof.
  unfold setitem at 1. simpl. intros H. apply in_map_iff in H.
  destruct H as [r [E Hr]]. exists r. split; [assumption |].
  intros x Hx. subst r'. unfold setitem in *. simpl in *.
  now rewrite get_cell_rebuild.
Qed.

Lemma stamp_len case stage df : len (stamp case stage df) = len df.
Proof. unfold stamp. now rewrite !setitem_len. Qed.

Lemma in_union_columns cols : forall acc x,
  In x (union_columns acc cols) <-> In x acc \/ In x cols.
Proof.
  induction cols as [| c t IH]; intros acc x; simpl.
  - tauto.
  - destruct (str_in c acc) eqn:E.
    + rewrite IH. apply str_in_iff in E.
      split; [tauto | intros [H | [H | H]]; subst; auto].
    + rewrite IH, in_app_iff. simpl. tauto.
Qed.

Lemma in_all_columns_from dfs : forall acc x,
  In x (fold_left (fun acc df => union_columns acc (columns df)) dfs acc)
  <-> In x acc \/ exists df, In df dfs /\ In x (columns df).
Proof.
  induction dfs as [| d dfs IH]; intros acc x; simpl.
  - split; [auto | intros [H | [df [[] _]]]; assumption].
  - rewrite IH, in_union_columns. split.
    + intros [[H | H] | [df [H1 H2]]]; eauto.
    + intros [H | [df [[E | H1] H2]]]; subst; eauto.
Qed.

Lemma in_all_columns dfs x :
  In x (all_columns dfs) <-> exists df, In df dfs /\ In x (columns df).
Proof.
  unfold all_columns. rewrite in_all_columns_from. simpl. tauto.
Qed.

Lemma relabel_length rs : forall start, List.length (relabel start rs) = List.length rs.
Proof. induction rs as [| r rs IH]; intros start; simpl; auto. Qed.

Lemma in_relabel rs : forall start r',
  In r' (relabel start rs) -> exists r, In r rs /\ cells r' = cells r.
Proof.
  induction rs as [| r rs IH]; intros start r' H; simpl in H; [destruct H |].
  destruct H as [H | H].
  - subst r'. exists r. simpl. auto.
  - destruct (IH _ _ H) as [r0 [H1 H2]]. exists r0. simpl. auto.
Qed.

Lemma flat_map_length_sum {A B} (f : A -> list B) (l : list A) :
  List.length (flat_map f l) = list_sum (map (fun x => List.length (f x)) l).
Proof.
  induction l as [| a l IH]; simpl; [reflexivity |].
  now rewrite length_app, IH.
Qed.

Lemma pd_concat_nonempty dfs :
  dfs <> [] ->
  pd_concat dfs true
  = inr (mkDF (all_columns dfs)
              (relabel 0 (flat_map (reindex_columns (all_columns dfs)) dfs))).
Proof. destruct dfs; [congruence | reflexivity]. Qed.

(** [pd.concat] of a non-empty list succeeds and keeps every row of
    every frame, once. *)
Lemma pd_concat_len dfs :
  dfs <> [] ->
  exists combined,
    pd_concat dfs true = inr combined /\
    columns combined = all_columns dfs /\
    len combined = total_rows dfs.
Proof.
  intros Hne. rewrite (pd_concat_nonempty Hne).
  eexists. split; [reflexivity |]. split; [reflexivity |].
  unfold len. cbn [rows]. rewrite relabel_length, flat_map_length_sum.
  unfold total_rows. f_equal. apply map_ext. intros df.
  unfold reindex_columns, len. apply length_map.
Qed.

(** Every row of the concatenation is a row of one of the frames,
    laid out over the union of the columns. *)
Lemma pd_concat_rows dfs combined r' :
  pd_concat dfs true = inr combined ->
  In r' (rows combined) ->
  exists df r, In df dfs /\ In r (rows df) /\
    forall c, In c (columns df) ->
      get_cell (columns combined) r' c = get_cell (columns df) r c.
Proof.
  intros E H.
  assert (Hne : dfs <> []) by (intros E0; subst; discriminate).
  rewrite (pd_concat_nonempty Hne) in E.
  injection E as E. subst combined. cbn [rows columns] in *.
  apply in_relabel in H. destruct H as [r1 [H1 Ec]].
  apply in_flat_map in H1. destruct H1 as [df [Hdf Hr]].
  unfold reindex_columns in Hr. apply in_map_iff in Hr.
  destruct Hr as [r [Er Hr]]. exists df, r. repeat split; try assumption.
  intros c Hc. rewrite (get_cell_relabel_cells _ r1 r' c Ec). subst r1.
  apply get_cell_rebuild. apply in_all_columns. eauto.
Qed.

Lemma insert_sorted_perm k l : Permutation (insert_sorted k l) (k :: l).
Proof.
  induction l as [| h t IH]; simpl; [reflexivity |].
  destruct (cell_leb k h); [reflexivity |].
  rewrite IH. apply perm_swap.
Qed.

Lemma sort_keys_perm l : Permutation (sort_keys l) l.
Proof.
  induction l as [| a l IH]; simpl; [reflexivity |].
  rewrite insert_sorted_perm. now constructor.
Qed.

Lemma in_group_keys col k :
  In k (group_keys col) <-> In k col /\ k <> NA.
Proof.
  unfold group_keys. split.
  - intros H. apply (Permutation_in _ (sort_keys_perm _)) in H.
    apply nodup_In, filter_In in H. destruct H as [H1 H2].
    split; [assumption |]. intros E. subst k. discriminate.
  - intros [H1 H2].
    apply (Permutation_in _ (Permutation_sym (sort_keys_perm _))).
    apply nodup_In, filter_In. split; [assumption |].
    destruct k; [congruence | reflexivity | reflexivity].
Qed.

Lemma group_keys_nodup col : NoDup (group_keys col).
Proof.
  unfold group_keys.
  apply (Permutation_NoDup (Permutation_sym (sort_keys_perm _))).
  apply NoDup_nodup.
Qed.

Lemma groupby_ok df by_ :
  In by_ (columns df) ->
  groupby df by_
  = inr (map (fun k => (k, mkDF (columns df) (rows_with df by_ k)))
             (group_keys (map (fun r => get_cell (columns df) r by_) (rows df)))).
Proof.
  intros H. unfold groupby, getitem. apply str_in_iff in H. now rewrite H.
Qed.

Lemma in_stage_keys df by_ k :
  In k (group_keys (map (fun r => get_cell (columns df) r by_) (rows df)))
  <-> k <> NA /\ exists r, In r (rows df) /\ get_cell (columns df) r by_ = k.
Proof.
  rewrite in_group_keys, in_map_iff. split.
  - intros [[r [E H]] Hk]. eauto.
  - intros [Hk [r [H E]]]. eauto.
Qed.

(* ================================================================= *)
(** ** The stage sampler: collecting the tables *)

Lemma files_found_eq fs directory :
  files_found fs directory = flat_map maf_of_triple (os_walk fs directory).
Proof.
  unfold files_found.
  destruct (settles_blank (find_maf_files_settles fs directory)) as [E _].
  now rewrite E.
Qed.

Lemma rows_returned_eq fs hugo_first p :
  rows_returned fs hugo_first p
  = match maf_read fs p with Some df => len df | None => 0 end.
Proof.
  unfold rows_returned.
  destruct (settles_blank (read_maf_file_settles fs hugo_first p)) as [E _].
  now rewrite E.
Qed.

Lemma settles_for_each_app {A B} (l : list A)
      (body : A -> list B -> M (list B)) (f : A -> list B) (g : A -> list string) :
  (forall x acc, settles (body x acc) (acc ++ f x) (g x)) ->
  forall acc, settles (for_each l body acc) (acc ++ flat_map f l) (flat_map g l).
Proof.
  intros Hb. induction l as [| x l IH]; intros acc; simpl.
  - rewrite app_nil_r. apply settles_ret.
  - eapply settles_bind; [apply Hb |]. rewrite app_assoc. apply IH.
Qed.

Lemma collect_cases_settles fs hugo_first stage selected_cases :
  let stage_dir := os_path_join BASE_FOLDER stage in
  settles (collect_cases fs hugo_first stage stage_dir selected_cases)
          (stage_tables fs stage selected_cases)
          (flat_map (fun case =>
                       flat_map (maf_lines fs hugo_first)
                                (files_found fs (os_path_join stage_dir case)))
                    selected_cases).
Proof.
  intros stage_dir. unfold collect_cases, stage_tables.
  apply (settles_for_each_app selected_cases _
           (fun case => stamped_tables fs stage case
                          (files_found fs (os_path_join stage_dir case)))
           (fun case => flat_map (maf_lines fs hugo_first)
                          (files_found fs (os_path_join stage_dir case)))).
  intros case acc. rewrite files_found_eq.
  change (flat_map (maf_lines fs hugo_first)
                   (flat_map maf_of_triple (os_walk fs (os_path_join stage_dir case))))
    with ([] ++ flat_map (maf_lines fs hugo_first)
                   (flat_map maf_of_triple (os_walk fs (os_path_join stage_dir case)))).
  eapply settles_bind.
  - apply find_maf_files_settles.
  - unfold stamped_tables.
    apply (settles_for_each_app _ _
             (fun f => match maf_read fs f with
                       | Some df => [stamp case stage df]
                       | None => []
                       end)
             (maf_lines fs hugo_first)).
    intros f acc'.
    rewrite <- (app_nil_r (maf_lines fs hugo_first f)).
    eapply settles_bind; [apply read_maf_file_settles |].
    destruct (maf_read fs f) as [df |].
    + apply settles_ret.
    + rewrite app_nil_r. apply settles_ret.
Qed.

(** What one call of [get_sample_mutation_data] returns, when it
    returns. *)
Lemma get_sample_mutation_data_tables fs hugo_first stage s tables s' :
  get_sample_mutation_data fs hugo_first stage s = (inr tables, s') ->
  tables = stage_tables fs stage (stage_selection fs stage s).
Proof.
  unfold get_sample_mutation_data, stage_selection.
  destruct (negb (os_path_exists fs (os_path_join BASE_FOLDER stage))).
  - unfold bind, print, ret. intros E. injection E as E _. now subst.
  - unfold bind at 1.
    destruct (select_cases fs (os_path_join BASE_FOLDER stage) s)
      as [[e | sel] s1]; [discriminate |].
    rewrite (collect_cases_settles fs hugo_first stage sel s1). simpl.
    intros E. injection E as E _. now subst.
Qed.

Lemma collect_stages fs hugo_first sts :
  forall acc s all s',
    for_each sts
      (fun stage all_mutation_data =>
         mutation_data <- get_sample_mutation_data fs hugo_first stage ;;
         ret (all_mutation_data ++ mutation_data))
      acc s = (inr all, s') ->
    all = acc ++ flat_map (fun sel => stage_tables fs (fst sel) (snd sel))
                          (selections_from fs hugo_first sts s).
Proof.
  induction sts as [| stage sts IH]; intros acc s all s'; simpl.
  - unfold ret. intros E. injection E as E _. subst. now rewrite app_nil_r.
  - unfold bind at 1. unfold bind at 1.
    destruct (get_sample_mutation_data fs hugo_first stage s)
      as [[e | tables] s1] eqn:Eg; [discriminate |].
    unfold ret at 1. intros E. apply IH in E. subst all. simpl.
    rewrite (get_sample_mutation_data_tables _ _ _ _ Eg).
    now rewrite app_assoc.
Qed.

Lemma collect_all_tables fs hugo_first s all s' :
  collect_all fs hugo_first s = (inr all, s') ->
  all = flat_map (fun sel => stage_tables fs (fst sel) (snd sel))
                 (selections_from fs hugo_first stages s).
Proof. intros E. apply collect_stages in E. exact E. Qed.

Lemma stamped_tables_rows fs hugo_first stage case maf_files :
  total_rows (stamped_tables fs stage case maf_files)
  = list_sum (map (rows_returned fs hugo_first) maf_files).
Proof.
  induction maf_files as [| f l IH]; [reflexivity |].
  unfold stamped_tables in *. simpl. rewrite total_rows_app, IH.
  rewrite rows_returned_eq. destruct (maf_read fs f) as [df |].
  - unfold total_rows. simpl. rewrite stamp_len. lia.
  - reflexivity.
Qed.

Lemma stage_tables_rows fs hugo_first stage sel :
  total_rows (stage_tables fs stage sel)
  = selection_rows fs hugo_first (stage, sel).
Proof.
  unfold stage_tables, selection_rows. simpl.
  induction sel as [| case sel IH]; [reflexivity |].
  simpl. rewrite total_rows_app, IH.
  now rewrite (stamped_tables_rows fs hugo_first).
Qed.

Lemma selections_rows fs hugo_first sels :
  total_rows (flat_map (fun sel => stage_tables fs (fst sel) (snd sel)) sels)
  = filtered_rows fs hugo_first sels.
Proof.
  unfold filtered_rows.
  induction sels as [| [stage sel] sels IH]; [reflexivity |].
  simpl. rewrite total_rows_app, IH.
  now rewrite (stage_tables_rows fs hugo_first).
Qed.

Lemma maf_read_some fs p df' :
  maf_read fs p = Some df' ->
  exists df, pd_read_csv fs p = inr df /\
             In "Hugo_Symbol" (columns df) /\
             In "Variant_Classification" (columns df) /\
             df' = coding_part df /\ empty df' = false.
Proof.
  unfold maf_read. destruct (pd_read_csv fs p) as [e | df]; [discriminate |].
  destruct (issubset required_columns (columns df)) eqn:Hsub; [| discriminate].
  apply required_present in Hsub. destruct Hsub as [Hh Hv].
  destruct (empty (coding_part df)) eqn:Ee; [discriminate |].
  intros E. injection E as E. subst df'. exists df. auto.
Qed.

Lemma empty_false df : empty df = false -> 1 <= len df /\ columns df <> [].
Proof.
  unfold empty, len. intros H. apply orb_false_iff in H. destruct H as [H1 H2].
  apply Nat.eqb_neq in H1, H2. split; [lia |].
  intros E. rewrite E in H2. simpl in H2. lia.
Qed.

Lemma coding_part_rows df r :
  In r (rows (coding_part df)) ->
  exists v, In v CODING_VARIANTS /\
            get_cell (columns df) r "Variant_Classification" = Str v.
Proof.
  unfold coding_part. simpl. intros H. apply filter_In in H.
  destruct H as [_ H]. unfold is_coding in H.
  destruct (get_cell (columns df) r "Variant_Classification") as [| v | z];
    try discriminate.
  exists v. split; [exact (proj1 (str_in_iff _ _) H) | reflexivity].
Qed.

Lemma setitem_get df c v r' :
  In r' (rows (setitem df c v)) ->
  exists r, In r (rows df) /\
    get_cell (columns (setitem df c v)) r' c = v /\
    forall x, x <> c -> In x (columns df) ->
      get_cell (columns (setitem df c v)) r' x = get_cell (columns df) r x.
Proof.
  intros H. destruct (setitem_rows _ _ _ _ H) as [r [Hr Hget]].
  exists r. split; [assumption |]. split.
  - rewrite Hget by (apply setitem_columns; auto).
    now rewrite String.eqb_refl.
  - intros x Hx Hin. rewrite Hget by (apply setitem_columns; auto).
    apply String.eqb_neq in Hx. now rewrite Hx.
Qed.

Lemma stamp_stamped_for case stage df :
  In "Variant_Classification" (columns df) ->
  stamped_for stage (stamp case stage (coding_part df)).
Proof.
  intros Hv. unfold stamp.
  remember (setitem (coding_part df) "Case" (Str case)) as d1 eqn:Ed1.
  assert (Hc1 : In "Case" (columns d1))
    by (subst d1; apply setitem_columns; auto).
  assert (Hv1 : In "Variant_Classification" (columns d1))
    by (subst d1; apply setitem_columns; left; exact Hv).
  split; [apply setitem_columns; auto |].
  split; [apply setitem_columns; auto |].
  split; [apply setitem_columns; auto |].
  intros r2 H2.
  destruct (setitem_get _ _ _ _ H2) as [r1 [Hr1 [Hstage Hother2]]].
  rewrite Ed1 in Hr1.
  destruct (setitem_get _ _ _ _ Hr1) as [r0 [Hr0 [Hcase Hother1]]].
  rewrite <- Ed1 in Hcase, Hother1.
  split; [| split].
  - exists case. rewrite Hother2; [exact Hcase | discriminate | exact Hc1].
  - exact Hstage.
  - destruct (coding_part_rows df r0 Hr0) as [v [Hin Ev]].
    exists v. split; [assumption |].
    rewrite Hother2; [| discriminate | exact Hv1].
    rewrite Hother1; [exact Ev | discriminate | exact Hv].
Qed.

Lemma stage_tables_stamped fs stage sel df :
  In df (stage_tables fs stage sel) ->
  stamped_for stage df /\ 1 <= len df.
Proof.
  unfold stage_tables, stamped_tables. intros H.
  apply in_flat_map in H. destruct H as [case [_ H]].
  apply in_flat_map in H. destruct H as [f [_ H]].
  destruct (maf_read fs f) as [df' |] eqn:Er; [| destruct H].
  destruct H as [H | []]. subst df.
  apply maf_read_some in Er.
  destruct Er as [df0 [_ [_ [Hv [E Hne]]]]]. subst df'. split.
  - now apply stamp_stamped_for.
  - rewrite stamp_len. now apply empty_false.
Qed.

Lemma in_selections_stage fs hugo_first sts : forall s sel,
  In sel (selections_from fs hugo_first sts s) -> In (fst sel) sts.
Proof.
  induction sts as [| stage sts IH]; intros s sel H; simpl in H; [destruct H |].
  destruct H as [H | H]; [subst; now left | right; eauto].
Qed.

(** Every table [main] collects was stamped for one of the four
    stages and has at least one row. *)
Lemma collect_all_stamped fs hugo_first s all s' df :
  collect_all fs hugo_first s = (inr all, s') ->
  In df all ->
  exists stage, In stage stages /\ stamped_for stage df /\ 1 <= len df.
Proof.
  intros E H. apply collect_all_tables in E. subst all.
  apply in_flat_map in H. destruct H as [[stage sel] [Hs H]]. simpl in H.
  exists stage. split.
  - apply (in_selections_stage _ _ _ _ _ Hs).
  - now apply stage_tables_stamped in H.
Qed.

Lemma stamped_for_invariant stage df : stamped_for stage df -> table_invariant df.
Proof.
  intros [_ [_ [_ H]]] r Hr. destruct (H r Hr) as [[case Hc] [Hs Hv]].
  unfold row_invariant. rewrite Hc, Hs. auto.
Qed.

(** The rows of the combined table are stamped rows. *)
Lemma combined_stamped fs hugo_first s all s' combined :
  collect_all fs hugo_first s = (inr all, s') ->
  pd_concat all true = inr combined ->
  In "Case" (columns combined) /\ In "Stage" (columns combined) /\
  In "Variant_Classification" (columns combined) /\
  forall r, In r (rows combined) ->
    (exists case, get_cell (columns combined) r "Case" = Str case) /\
    (exists stage, In stage stages /\
                   get_cell (columns combined) r "Stage" = Str stage) /\
    (exists v, In v CODING_VARIANTS /\
               get_cell (columns combined) r "Variant_Classification" = Str v).
Proof.
  intros Ec Ep.
  assert (Hne : all <> []) by (intros E0; subst; discriminate).
  destruct (pd_concat_len Hne) as [c' [Ep' [Hcols _]]].
  rewrite Ep in Ep'. injection Ep' as Ep'. subst c'.
  destruct all as [| d0 rest] eqn:Eall; [congruence |]. rewrite <- Eall in *.
  assert (Hd0 : In d0 all) by (rewrite Eall; now left).
  destruct (collect_all_stamped _ _ _ _ Ec Hd0) as [st0 [_ [[H1 [H2 [H3 _]]] _]]].
  repeat split; try (rewrite Hcols; apply in_all_columns; eauto).
  - destruct (pd_concat_rows _ _ Ep H) as [df [r0 [Hdf [Hr0 Hget]]]].
    destruct (collect_all_stamped _ _ _ _ Ec Hdf)
      as [st [_ [[Hc [Hs [Hv Hrows]]] _]]].
    destruct (Hrows r0 Hr0) as [[case Ecase] _].
    exists case. now rewrite (Hget _ Hc).
  - destruct (pd_concat_rows _ _ Ep H) as [df [r0 [Hdf [Hr0 Hget]]]].
    destruct (collect_all_stamped _ _ _ _ Ec Hdf)
      as [st [Hst [[Hc [Hs [Hv Hrows]]] _]]].
    destruct (Hrows r0 Hr0) as [_ [Estage _]].
    exists st. split; [assumption |]. now rewrite (Hget _ Hs).
  - destruct (pd_concat_rows _ _ Ep H) as [df [r0 [Hdf [Hr0 Hget]]]].
    destruct (collect_all_stamped _ _ _ _ Ec Hdf)
      as [st [_ [[Hc [Hs [Hv Hrows]]] _]]].
    destruct (Hrows r0 Hr0) as [_ [_ [v [Hin Ev]]]].
    exists v. split; [assumption |]. now rewrite (Hget _ Hv).
Qed.

(** How [main] goes on once the tables are collected. *)
Lemma main_after_collect fs hugo_first s all s1 combined :
  collect_all fs hugo_first s = (inr all, s1) ->
  pd_concat all true = inr combined ->
  main fs hugo_first s
  = (save_to_excel combined "mutation_cnv_filtered.xlsx" ;;;
     visualize_mutation_cnv combined) s1.
Proof.
  intros Ec Ep. unfold main. unfold bind at 1. rewrite Ec.
  destruct all as [| d rest]; [discriminate |].
  unfold bind at 1. unfold lift. now rewrite Ep.
Qed.

(** C1.  In a run where [main] collects at least one table, the
    combined table has as many rows as [read_maf_file] returned in
    total, over every file [find_maf_files] found in every case selected
    in every stage: [pd.concat] neither drops nor repeats a row. *)
Theorem combined_row_count :
  forall fs hugo_first s all_mutation_data s1,
    collect_all fs hugo_first s = (inr all_mutation_data, s1) ->
    all_mutation_data <> [] ->
    exists combined_df,
      pd_concat all_mutation_data true = inr combined_df /\
      main fs hugo_first s
      = (save_to_excel combined_df "mutation_cnv_filtered.xlsx" ;;;
         visualize_mutation_cnv combined_df) s1 /\
      len combined_df
      = filtered_rows fs hugo_first (selections_from fs hugo_first stages s).
Proof.
  intros fs hugo_first s all s1 Ec Hne.
  destruct (pd_concat_len Hne) as [combined [Ep [_ Hlen]]].
  exists combined. split; [exact Ep |]. split.
  - now apply main_after_collect with (all := all).
  - rewrite Hlen. rewrite (collect_all_tables _ _ _ Ec).
    apply selections_rows.
Qed.

(** C2.  Every table [get_sample_mutation_data] returns, and the
    combined table [main] builds from them, satisfies the invariant:
    in every row [Case] and [Stage] are not null and
    [Variant_Classification] is one of the coding variants. *)
Theorem combined_table_invariant :
  forall fs hugo_first,
    (forall stage s mutation_data s',
        get_sample_mutation_data fs hugo_first stage s = (inr mutation_data, s') ->
        forall maf_df, In maf_df mutation_data -> table_invariant maf_df) /\
    (forall s all_mutation_data s' combined_df,
        collect_all fs hugo_first s = (inr all_mutation_data, s') ->
        pd_concat all_mutation_data true = inr combined_df ->
        table_invariant combined_df).
Proof.
  intros fs hugo_first. split.
  - intros stage s tables s' E df H.
    apply get_sample_mutation_data_tables in E. subst tables.
    apply stage_tables_stamped in H. destruct H as [H _].
    now apply stamped_for_invariant with (stage := stage).
  - intros s all s' combined Ec Ep r Hr.
    destruct (combined_stamped _ _ _ Ec Ep) as [_ [_ [_ H]]].
    destruct (H r Hr) as [[case Hc] [[stage [_ Hs]] Hv]].
    unfold row_invariant. rewrite Hc, Hs. auto.
Qed.

(** C9.  [read_maf_file] returns [None] or a frame that is not
    empty; so every table [main] collects has a row, the combined
    table exists and is not empty exactly when the list of collected
    tables is not empty, and testing the list is testing the rows. *)
Theorem read_maf_file_never_empty_table :
  forall fs hugo_first,
    (forall maf_path s,
        match fst (read_maf_file fs hugo_first maf_path s) with
        | inr (Some maf_df) => empty maf_df = false /\ 1 <= len maf_df
        | inr None => True
        | inl _ => False
        end) /\
    (forall s all_mutation_data s',
        collect_all fs hugo_first s = (inr all_mutation_data, s') ->
        (forall maf_df, In maf_df all_mutation_data -> 1 <= len maf_df) /\
        (all_mutation_data <> [] <->
         exists combined_df,
           pd_concat all_mutation_data true = inr combined_df /\
           empty combined_df = false) /\
        (all_mutation_data <> [] <-> 1 <= total_rows all_mutation_data)).
Proof.
  intros fs hugo_first. split.
  - intros p s. rewrite (read_maf_file_settles fs hugo_first p s). simpl.
    destruct (maf_read fs p) as [df |] eqn:E; [| exact I].
    apply maf_read_some in E. destruct E as [_ [_ [_ [_ [_ E]]]]].
    split; [assumption | now apply empty_false].
  - intros s all s' Ec.
    assert (Hrows : forall df, In df all -> 1 <= len df).
    { intros df H. destruct (collect_all_stamped _ _ _ _ Ec H) as [_ [_ [_ L]]].
      exact L. }
    assert (Htot : all <> [] -> 1 <= total_rows all).
    { intros Hne. destruct all as [| d rest]; [congruence |].
      unfold total_rows. simpl. specialize (Hrows d (or_introl eq_refl)). lia. }
    split; [exact Hrows |]. split; split.
    + intros Hne. destruct (pd_concat_len Hne) as [combined [Ep [_ Hlen]]].
      exists combined. split; [exact Ep |].
      destruct (combined_stamped _ _ _ Ec Ep) as [Hcase _].
      unfold empty. apply orb_false_iff. split; apply Nat.eqb_neq.
      * specialize (Htot Hne). unfold len in Hlen. lia.
      * intros E0. apply length_zero_iff_nil in E0. rewrite E0 in Hcase.
        destruct Hcase.
    + intros [combined [Ep _]] E0. subst all. discriminate.
    + exact Htot.
    + intros H E0. subst all. unfold total_rows in H. simpl in H. lia.
Qed.

(* ================================================================= *)
(** ** The exporter and the visualizer *)

Lemma flat_map_singleton {A B} (f : A -> B) (l : list A) :
  flat_map (fun x => [f x]) l = map f l.
Proof. induction l as [| a l IH]; simpl; [reflexivity | now rewrite IH]. Qed.

Lemma write_sheets_loop (groups : list (cell * DataFrame)) :
  forall acc,
    settles (for_each groups
               (fun '(stage, stage_df) sheets =>
                  let sheets := sheets ++ [to_excel stage_df stage false] in
                  print ("Saved " ++ str_of_nat (len stage_df)
                           ++ " records to sheet: " ++ str_of_cell stage) ;;;
                  ret sheets)
               acc)
            (acc ++ map sheet_of_group groups)
            (map line_of_group groups).
Proof.
  induction groups as [| [stage stage_df] groups IH]; intros acc; simpl for_each.
  - simpl. rewrite app_nil_r. apply settles_ret.
  - apply (@settles_bind _ _ _ _ (acc ++ [to_excel stage_df stage false])
                         [line_of_group (stage, stage_df)] _
                         (map line_of_group groups)).
    + apply (@settles_bind _ _ _ _ tt [line_of_group (stage, stage_df)] _ []).
      * apply settles_print.
      * apply settles_ret.
    + simpl map.
      replace (acc ++ sheet_of_group (stage, stage_df) :: map sheet_of_group groups)
        with ((acc ++ [to_excel stage_df stage false]) ++ map sheet_of_group groups)
        by (rewrite <- app_assoc; reflexivity).
      apply IH.
Qed.

Lemma write_sheets_settles (groups : list (cell * DataFrame)) :
  settles (write_sheets groups)
          (map sheet_of_group groups) (map line_of_group groups).
Proof. apply (write_sheets_loop groups []). Qed.

Lemma save_to_excel_run df output_file s :
  In "Stage" (columns df) ->
  save_to_excel df output_file s
  = (inr tt, mkState (stdout s ++ saved_lines df) (gen s)
                     (disk s ++ [(output_file, Workbook (stage_sheets df))])).
Proof.
  intros H. unfold save_to_excel, with_ExcelWriter, bind at 1, lift.
  rewrite (groupby_ok _ _ H).
  rewrite (write_sheets_settles _ s). unfold write_file, printed. simpl.
  unfold stage_sheets, saved_lines, stage_keys. rewrite !map_map. reflexivity.
Qed.

Lemma visualize_mutation_cnv_run df s :
  In "Variant_Classification" (columns df) ->
  In "Stage" (columns df) ->
  visualize_mutation_cnv df s
  = (inr tt, mkState (stdout s) (gen s)
                     (disk s ++ [("mutation_frequency_scatter_filtered.png",
                                  Figure (stage_counts df) (stage_counts df))])).
Proof.
  intros Hv Hs. unfold visualize_mutation_cnv.
  rewrite (proj2 (str_in_iff _ _) Hv), (proj2 (str_in_iff _ _) Hs). simpl.
  unfold bind, lift, groupby_size. rewrite (groupby_ok _ _ Hs).
  unfold write_file. rewrite map_map. reflexivity.
Qed.




Lemma keeps_disk_ret {A} (a : A) : keeps_disk (ret a).
Proof. intros s. reflexivity. Qed.

Lemma keeps_disk_lift {A} (r : exn + A) : keeps_disk (lift r).
Proof. intros s. reflexivity. Qed.

Lemma keeps_disk_print line : keeps_disk (print line).
Proof. intros s. reflexivity. Qed.

Lemma keeps_disk_bind {A B} (m : M A) (k : A -> M B) :
  keeps_disk m -> (forall a, keeps_disk (k a)) -> keeps_disk (bind m k).
Proof.
  intros Hm Hk s. unfold bind. specialize (Hm s).
  destruct (m s) as [[e | a] s1]; simpl in *; [assumption |].
  now rewrite (Hk a s1).
Qed.

Lemma keeps_disk_for_each {A B} (l : list A) (body : A -> B -> M B) :
  (forall x acc, keeps_disk (body x acc)) ->
  forall acc, keeps_disk (for_each l body acc).
Proof.
  intros Hb. induction l as [| x l IH]; intros acc; simpl.
  - apply keeps_disk_ret.
  - apply keeps_disk_bind; auto.
Qed.

Lemma keeps_disk_settles {A} (m : M A) a lines : settles m a lines -> keeps_disk m.
Proof. intros H s. now rewrite (H s). Qed.

Lemma keeps_disk_random_sample population k : keeps_disk (random_sample population k).
Proof.
  intros s. unfold random_sample.
  destruct (List.length population <? k)%nat; [reflexivity |].
  now destruct (sample_loop k population (gen s)).
Qed.

Lemma keeps_disk_select_cases fs stage_dir : keeps_disk (select_cases fs stage_dir).
Proof.
  unfold select_cases.
  apply keeps_disk_bind; [apply keeps_disk_lift |]. intros names.
  apply keeps_disk_bind; [| intros _; apply keeps_disk_random_sample].
  destruct (_ <? _)%nat; [apply keeps_disk_print | apply keeps_disk_ret].
Qed.

Lemma keeps_disk_get_sample fs hugo_first stage :
  keeps_disk (get_sample_mutation_data fs hugo_first stage).
Proof.
  unfold get_sample_mutation_data.
  destruct (negb (os_path_exists fs (os_path_join BASE_FOLDER stage))).
  - apply keeps_disk_bind; [apply keeps_disk_print |].
    intros _. apply keeps_disk_ret.
  - apply keeps_disk_bind; [apply keeps_disk_select_cases |]. intros sel.
    destruct (total_collect_cases fs hugo_first stage
                (os_path_join BASE_FOLDER stage) sel) as [a [lines H]].
    exact (keeps_disk_settles H).
Qed.

Lemma keeps_disk_collect_all fs hugo_first : keeps_disk (collect_all fs hugo_first).
Proof.
  unfold collect_all. apply keeps_disk_for_each. intros stage acc.
  apply keeps_disk_bind; [apply keeps_disk_get_sample |].
  intros tables. apply keeps_disk_ret.
Qed.

Lemma in_stage_sheets df sh :
  In sh (stage_sheets df) <->
  exists k, In k (stage_keys df) /\
            sh = mkSheet k (map Str (columns df))
                         (map (cells_of (columns df)) (rows_with df "Stage" k)).
Proof.
  unfold stage_sheets. rewrite in_map_iff. split.
  - intros [k [E H]]. exists k. split; [assumption |]. now subst sh.
  - intros [k [H E]]. exists k. split; [now subst sh | assumption].
Qed.

Lemma stage_sheets_names df : map sheet_name (stage_sheets df) = stage_keys df.
Proof. unfold stage_sheets. rewrite map_map. simpl. apply map_id. Qed.

(** C5.  Every run of [main], by what was collected.  When collecting
    raises, [main] raises and nothing is written.  When no table was
    collected, no file is written and the diagnostic is printed.
    Otherwise the workbook is written, with sheets of distinct names:
    a stage label has a sheet exactly when it occurs in the [Stage]
    column of the combined table, and the sheet of a label holds the
    column labels as its header and under it the cells of the rows of
    that stage, in order, with no column of row labels. *)
Theorem export_one_sheet_per_stage :
  forall fs hugo_first s,
    match collect_all fs hugo_first s with
    | (inl e, s1) =>
      main fs hugo_first s = (inl e, s1) /\ disk s1 = disk s
    | (inr [], s1) =>
      main fs hugo_first s
      = (inr tt,
         printed s1 ["No coding mutation data collected! Ensure MAF files exist."])
      /\ disk s1 = disk s
    | (inr (d :: rest), s1) =>
      exists combined_df sheets points lines,
        pd_concat (d :: rest) true = inr combined_df /\
        main fs hugo_first s
        = (inr tt,
           mkState (stdout s1 ++ lines) (gen s1)
                   (disk s ++ [("mutation_cnv_filtered.xlsx", Workbook sheets);
                               ("mutation_frequency_scatter_filtered.png",
                                Figure points points)])) /\
        NoDup (map sheet_name sheets) /\
        (forall label,
            (exists r, In r (rows combined_df) /\
                       get_cell (columns combined_df) r "Stage" = Str label) <->
            (exists sh, In sh sheets /\ sheet_name sh = Str label)) /\
        (forall sh, In sh sheets ->
            exists label,
              In label stages /\
              sheet_name sh = Str label /\
              header sh = map Str (columns combined_df) /\
              body sh = map (cells_of (columns combined_df))
                            (rows_with combined_df "Stage" (Str label)))
    end.
Proof.
  intros fs hugo_first s.
  pose proof (keeps_disk_collect_all fs hugo_first s) as Hdisk.
  destruct (collect_all fs hugo_first s) as [[e | all] s1] eqn:Ec; simpl in Hdisk.
  - split; [| exact Hdisk]. unfold main, bind. now rewrite Ec.
  - destruct all as [| d rest].
    + split; [| exact Hdisk]. unfold main, bind. now rewrite Ec.
    + assert (Hne : d :: rest <> []) by discriminate.
      destruct (pd_concat_len Hne) as [combined [Ep _]].
      destruct (combined_stamped _ _ _ Ec Ep) as [_ [Hs [Hv Hrows]]].
      exists combined, (stage_sheets combined), (stage_counts combined),
             (saved_lines combined).
      split; [exact Ep |]. split; [| split; [| split]].
      * rewrite (main_after_collect _ _ _ Ec Ep). unfold bind.
        rewrite (save_to_excel_run _ _ _ Hs).
        rewrite (visualize_mutation_cnv_run _ _ Hv Hs). simpl.
        rewrite Hdisk, <- app_assoc. reflexivity.
      * rewrite stage_sheets_names. apply group_keys_nodup.
      * intros label. split.
        -- intros [r [Hr Er]].
           exists (mkSheet (Str label) (map Str (columns combined))
                           (map (cells_of (columns combined))
                                (rows_with combined "Stage" (Str label)))).
           split; [| reflexivity]. apply in_stage_sheets.
           exists (Str label). split; [| reflexivity].
           apply in_stage_keys. split; [discriminate | eauto].
        -- intros [sh [Hsh En]]. apply in_stage_sheets in Hsh.
           destruct Hsh as [k [Hk E]]. subst sh. simpl in En. subst k.
           apply in_stage_keys in Hk. tauto.
      * intros sh Hsh. apply in_stage_sheets in Hsh.
        destruct Hsh as [k [Hk E]]. subst sh. simpl.
        apply in_stage_keys in Hk. destruct Hk as [_ [r [Hr Er]]].
        destruct (Hrows r Hr) as [_ [[label [Hl El]] _]].
        exists label. rewrite El in Er. subst k.
        repeat split; assumption || reflexivity.
Qed.

(* ================================================================= *)
(** ** [random.sample]: selection by drawn positions *)














(* ================================================================= *)
(** ** Path resolution below a directory *)

Lemma split_sep_cons s : exists h t, split_sep s = h :: t.
Proof.
  induction s as [| c s [h [t IH]]]; simpl; [eauto |].
  destruct (Ascii.eqb c "/"); [eauto |]. rewrite IH. eauto.
Qed.

Lemma split_sep_app a b :
  split_sep (a ++ String "/" b) = split_sep a ++ split_sep b.
Proof.
  induction a as [| c a IH]; simpl; [reflexivity |].
  destruct (Ascii.eqb c "/"); rewrite IH; [reflexivity |].
  destruct (split_sep_cons a) as [h [t E]]. now rewrite E.
Qed.

Lemma split_sep_name n : has_slash n = false -> split_sep n = [n].
Proof.
  induction n as [| c n IH]; simpl; [reflexivity |].
  intros H. apply orb_false_iff in H. destruct H as [Hc Hn].
  rewrite Hc, (IH Hn). reflexivity.
Qed.

Lemma str_endswith_cons c s p :
  str_endswith (String c s) p = String.eqb (String c s) p || str_endswith s p.
Proof. reflexivity. Qed.

Lemma str_endswith_suffix s p :
  str_endswith s p = true -> exists pre, s = (pre ++ p)%string.
Proof.
  induction s as [| c s IH]; intros H.
  - destruct p; [exists ""; reflexivity | discriminate].
  - rewrite str_endswith_cons in H.
    apply orb_true_iff in H. destruct H as [H | H].
    + apply String.eqb_eq in H. exists "". simpl. exact H.
    + destruct (IH H) as [pre E]. exists (String c pre). simpl. now rewrite E.
Qed.

Lemma resolve_from_app r a : forall cur b,
  resolve_from r cur (a ++ b)
  = match resolve_from r cur a with
    | Some q => resolve_from r q b
    | None => None
    end.
Proof.
  induction a as [| c a IH]; intros cur b; simpl; [reflexivity |].
  destruct (lookup cur r) as [[parsed | es] |]; try reflexivity.
  destruct (String.eqb c "" || String.eqb c "."); [apply IH |].
  destruct (String.eqb c ".."); [apply IH |].
  destruct (assoc c es); [apply IH | reflexivity].
Qed.

Lemma lookup_snoc q : forall r es name child,
  lookup q r = Some (Dir es) ->
  assoc name es = Some child ->
  lookup (q ++ [name]) r = Some child.
Proof.
  induction q as [| c q IH]; intros r es name child Hl Ha; simpl in *.
  - injection Hl as Hl. subst r. now rewrite Ha.
  - destruct r as [parsed | es0]; [discriminate |].
    destruct (assoc c es0) as [x |]; [| discriminate]. eauto.
Qed.

Lemma valid_name_parts n :
  valid_name n = true ->
  n <> "" /\ String.eqb n "" || String.eqb n "." = false /\
  String.eqb n ".." = false /\ has_slash n = false.
Proof.
  unfold valid_name. intros H.
  repeat (apply andb_true_iff in H; destruct H as [H ?]).
  repeat match goal with
         | X : negb _ = true |- _ => apply negb_true_iff in X
         end.
  repeat split; try assumption.
  - intros E. subst n. discriminate.
  - apply orb_false_iff. auto.
Qed.

(** Resolving one proper name in a directory that was reached. *)
Lemma resolve_from_name r q es name child :
  lookup q r = Some (Dir es) ->
  valid_name name = true ->
  assoc name es = Some child ->
  resolve_from r q [name] = Some (q ++ [name]).
Proof.
  intros Hl Hv Ha. destruct (valid_name_parts _ Hv) as [_ [H1 [H2 _]]].
  simpl. now rewrite Hl, H1, H2, Ha.
Qed.

Lemma prefix_slash c s :
  String.prefix "/" (String c s) = if ascii_dec "/" c then true else false.
Proof.
  cbn [String.prefix]. destruct (ascii_dec "/" c); [now destruct s | reflexivity].
Qed.

Lemma str_startswith_app p x :
  p <> "" -> str_startswith (p ++ x) "/" = str_startswith p "/".
Proof.
  intros H. destruct p as [| c p]; [congruence |].
  unfold str_startswith. cbn [append]. now rewrite !prefix_slash.
Qed.

Lemma str_app_nonempty p x : p <> "" -> (p ++ x)%string <> "".
Proof. destruct p; [congruence | discriminate]. Qed.

Lemma str_startswith_name n :
  has_slash n = false -> str_startswith n "/" = false.
Proof.
  destruct n as [| c n]; [reflexivity |]. cbn [has_slash]. intros H.
  apply orb_false_iff in H. destruct H as [H _].
  unfold str_startswith. rewrite prefix_slash.
  destruct (ascii_dec "/" c) as [E | E]; [| reflexivity].
  subst c. vm_compute in H. discriminate.
Qed.

(** The path [os.path.join(p, name)] of an entry of the directory at
    [p] resolves to that entry. *)
Lemma resolve_child fs p es name child :
  resolve fs p = Some (Dir es) ->
  valid_name name = true ->
  assoc name es = Some child ->
  resolve fs (os_path_join p name) = Some child.
Proof.
  intros Hr Hv Ha. pose proof (valid_name_parts _ Hv) as [_ [_ [_ Hs]]].
  unfold resolve in Hr. destruct (String.eqb p "") eqn:Ep; [discriminate |].
  apply String.eqb_neq in Ep.
  destruct (resolve_from (root fs)
              (if str_startswith p "/" then [] else cwd fs) (split_sep p))
    as [q |] eqn:Eq; [| discriminate].
  unfold os_path_join. rewrite (str_startswith_name _ Hs).
  rewrite (proj2 (String.eqb_neq p "") Ep). simpl.
  destruct (str_endswith p "/") eqn:Ee.
  - apply str_endswith_suffix in Ee. destruct Ee as [pre E]. subst p.
    unfold resolve.
    rewrite (proj2 (String.eqb_neq _ "") (str_app_nonempty _ Ep)).
    rewrite (str_startswith_app _ Ep).
    rewrite str_app_assoc. simpl append at 2.
    rewrite split_sep_app, (split_sep_name _ Hs), resolve_from_app.
    rewrite split_sep_app, resolve_from_app in Eq. simpl split_sep in Eq.
    destruct (resolve_from (root fs)
                (if str_startswith (pre ++ "/") "/" then [] else cwd fs)
                (split_sep pre)) as [q0 |]; [| discriminate].
    simpl in Eq. destruct (lookup q0 (root fs)) as [[parsed | es0] |] eqn:El;
      try discriminate.
    injection Eq as Eq. subst q0. rewrite El in Hr. injection Hr as Hr. subst es0.
    rewrite (@resolve_from_name _ _ _ _ _ El Hv Ha).
    apply (@lookup_snoc _ _ _ _ _ El Ha).
  - unfold resolve.
    rewrite (proj2 (String.eqb_neq _ "") (str_app_nonempty _ Ep)).
    rewrite (str_startswith_app _ Ep).
    change ("/" ++ name)%string with (String "/" name).
    rewrite split_sep_app, (split_sep_name _ Hs), resolve_from_app, Eq.
    rewrite (@resolve_from_name _ _ _ _ _ Hr Hv Ha).
    apply (@lookup_snoc _ _ _ _ _ Hr Ha).
Qed.

Lemma assoc_in name child es :
  NoDup (map fst es) -> In (name, child) es -> assoc name es = Some child.
Proof.
  induction es as [| [n x] es IH]; intros Hnd H; [destruct H |].
  simpl in *. inversion Hnd as [| ? ? Hn Hnd']. subst.
  destruct H as [H | H].
  - injection H as E1 E2. subst. now rewrite String.eqb_refl.
  - destruct (String.eqb name n) eqn:E.
    + apply String.eqb_eq in E. subst n. exfalso. apply Hn.
      apply in_map_iff. exists (name, child). auto.
    + auto.
Qed.




(* ================================================================= *)
(** ** The stage sampler: selecting the cases *)




(* ================================================================= *)
(** ** The properties at work on the sample tree *)

Example find_maf_files_sample :
  fst (find_maf_files Sample.fs "./grade_generalised/StageI/caseA" Sample.s0)
  = inr ["./grade_generalised/StageI/caseA/a.maf";
         "./grade_generalised/StageI/caseA/bad.maf";
         "./grade_generalised/StageI/caseA/sub/b.maf";
         "./grade_generalised/StageI/caseA/sub/x.maf/c.maf"].
Proof. reflexivity. Qed.

Example main_sample :
  let r := main Sample.fs true Sample.s0 in
  fst r = inr tt /\
  map fst (disk (snd r))
  = ["mutation_cnv_filtered.xlsx"; "mutation_frequency_scatter_filtered.png"] /\
  List.length (stdout (snd r)) = 11.
Proof. vm_compute. auto. Qed.

Lemma combined_row_count_witness :
  exists combined_df,
    pd_concat Sample.collected true = inr combined_df /\
    main Sample.fs true Sample.s0
    = (save_to_excel combined_df "mutation_cnv_filtered.xlsx" ;;;
       visualize_mutation_cnv combined_df) Sample.s1 /\
    len combined_df
    = filtered_rows Sample.fs true
        (selections_from Sample.fs true stages Sample.s0).
Proof.
  apply (@combined_row_count Sample.fs true Sample.s0 Sample.collected Sample.s1).
  - vm_compute. reflexivity.
  - discriminate.
Defined.


Lemma read_maf_file_only_noncoding_witness :
  read_maf_file Sample.fs true "./grade_generalised/StageI/caseB/d.maf" Sample.s0
  = (inr None, Sample.s0).
Proof.
  apply (@read_maf_file_only_noncoding Sample.fs true _ Sample.silent_only).
  - reflexivity.
  - simpl. auto.
  - simpl. auto.
  - intros r v Hr Hv E. simpl in Hr. destruct Hr as [Hr | [Hr | []]]; subst r.
    + vm_compute in E. injection E as E. subst v. simpl in Hv.
      repeat (destruct Hv as [Hv | Hv]; [discriminate |]). destruct Hv.
    + vm_compute in E. discriminate.
Defined.

Lemma read_maf_file_missing_columns_witness :
  read_maf_file Sample.fs true
                "./grade_generalised/StageI/caseA/sub/x.maf/c.maf" Sample.s0
  = (inr None,
     printed Sample.s0
       ["Skipping ./grade_generalised/StageI/caseA/sub/x.maf/c.maf: Missing required columns {'Hugo_Symbol', 'Variant_Classification'}"])
  /\ occurs "Variant_Classification"
       "Skipping ./grade_generalised/StageI/caseA/sub/x.maf/c.maf: Missing required columns {'Hugo_Symbol', 'Variant_Classification'}".
Proof.
  destruct (@read_maf_file_missing_columns Sample.fs true
              "./grade_generalised/StageI/caseA/sub/x.maf/c.maf"
              Sample.no_classification Sample.s0) as [Hrun Hocc].
  - reflexivity.
  - right. simpl. intuition discriminate.
  - split; [exact Hrun |]. apply Hocc.
    + simpl. auto.
    + simpl. intuition discriminate.
Defined.

(* ================================================================= *)
(** ** When collecting returns, and what the found paths are *)

Lemma select_cases_returns fs stage_dir es s :
  os_scandir fs stage_dir = inr es ->
  exists selected_cases s1, select_cases fs stage_dir s = (inr selected_cases, s1).
Proof.
  intros Hs. unfold select_cases, os_listdir. rewrite Hs.
  unfold bind at 1, lift.
  set (cf := filter _ (map fst es)).
  assert (Hk : (List.length cf <? Nat.min samples_per_stage (List.length cf))%nat
               = false) by (apply Nat.ltb_ge; lia).
  unfold bind, random_sample.
  destruct (List.length cf <? samples_per_stage)%nat;
    unfold print, ret; cbn [stdout gen disk]; rewrite Hk;
    match goal with
    | |- context [sample_loop ?k ?p ?g] => destruct (sample_loop k p g)
    end; eauto.
Qed.

Lemma get_sample_mutation_data_returns fs hugo_first stage s :
  os_path_exists fs (os_path_join BASE_FOLDER stage) = false
  \/ os_path_isdir fs (os_path_join BASE_FOLDER stage) = true ->
  exists mutation_data s',
    get_sample_mutation_data fs hugo_first stage s = (inr mutation_data, s').
Proof.
  intros H. unfold get_sample_mutation_data.
  destruct (os_path_exists fs (os_path_join BASE_FOLDER stage)) eqn:Ex; simpl.
  - destruct H as [H | H]; [discriminate |].
    assert (Hs : exists es, os_scandir fs (os_path_join BASE_FOLDER stage) = inr es).
    { unfold os_path_isdir in H. unfold os_scandir.
      destruct (resolve fs (os_path_join BASE_FOLDER stage)) as [[p | es] |];
        try discriminate. eauto. }
    destruct Hs as [es Hs].
    destruct (select_cases_returns fs _ s Hs) as [sel [s1 Hsel]].
    unfold bind at 1. rewrite Hsel.
    destruct (total_collect_cases fs hugo_first stage
                (os_path_join BASE_FOLDER stage) sel) as [tables [lines Hc]].
    rewrite (Hc s1). eauto.
  - unfold bind, print, ret. eauto.
Qed.

(** [main] collects without raising as soon as no stage path is
    something else than a directory. *)
Lemma collect_all_returns fs hugo_first :
  (forall stage, In stage stages ->
     os_path_exists fs (os_path_join BASE_FOLDER stage) = false
     \/ os_path_isdir fs (os_path_join BASE_FOLDER stage) = true) ->
  forall s, exists all_mutation_data s1,
      collect_all fs hugo_first s = (inr all_mutation_data, s1).
Proof.
  unfold collect_all. generalize (@nil DataFrame). generalize stages.
  intros sts. induction sts as [| stage sts IH]; intros acc H s; simpl.
  - unfold ret. eauto.
  - destruct (get_sample_mutation_data_returns fs hugo_first stage s)
      as [tables [s' E]]; [apply H; now left |].
    unfold bind at 1. unfold bind at 1. rewrite E. unfold ret at 1.
    apply IH. intros st Hst. apply H. now right.
Qed.

Lemma wf_names_child d child es :
  wf_names (Dir es) -> In (d, child) es -> wf_names child.
Proof.
  simpl. intros [_ [_ H]] Hin.
  induction es as [| [n x] es IH]; [destruct Hin |].
  destruct H as [Hx Hes]. destruct Hin as [E | Hin].
  - injection E as E1 E2. now subst.
  - auto.
Qed.

(** Every path [find_maf_files] builds for a file resolves to that
    file: what is found by walking is what [pd.read_csv] opens. *)
Lemma found_paths_resolve fs top n dir name :
  has_file top n dir name ->
  wf_names n ->
  resolve fs top = Some n ->
  exists parsed, resolve fs (os_path_join dir name) = Some (File parsed).
Proof.
  intros H. induction H as [top es name parsed Hin
                           | top es d child dir name Hin Hf IH];
    intros Hwf Hr.
  - exists parsed. destruct Hwf as [Hnd [Hval _]].
    apply (@resolve_child fs top es name (File parsed) Hr).
    + apply Hval. apply in_map_iff. exists (name, File parsed). auto.
    + now apply assoc_in.
  - apply IH.
    + exact (wf_names_child _ _ Hwf Hin).
    + destruct Hwf as [Hnd [Hval _]].
      apply (@resolve_child fs top es d child Hr).
      * apply Hval. apply in_map_iff. exists (d, child). auto.
      * now apply assoc_in.
Qed.

Example stage_path_is_a_file :
  let fs := mkFS (Dir [("grade_generalised",
                        Dir [("StageI", File (inr Sample.tp53))])]) [] in
  fst (main fs true Sample.s0)
  = inl (Exception "NotADirectoryError"
                   "[Errno 20] Not a directory: './grade_generalised/StageI'").
Proof. reflexivity. Qed.


Example read_maf_file_sample :
  fst (read_maf_file Sample.fs true "./grade_generalised/StageI/caseA/a.maf"
                     Sample.s0)
  = inr (Some (mkDF ["Hugo_Symbol"; "Variant_Classification"; "Start_Position"]
                    [mkRow 0 [Str "TP53"; Str "Missense_Mutation"; Num 7578406];
                     mkRow 2 [Str "EGFR"; Str "Splice_Site"]])).
Proof. reflexivity. Qed.

Example read_maf_file_sample_corrupt :
  let r := read_maf_file Sample.fs true
             "./grade_generalised/StageI/caseA/bad.maf" Sample.s0 in
  fst r = inr None /\
  stdout (snd r)
  = ["Skipping ./grade_generalised/StageI/caseA/bad.maf due to error: Error tokenizing data"].
Proof. split; reflexivity. Qed.

Example visualize_mutation_cnv_sample_missing :
  fst (visualize_mutation_cnv Sample.no_classification Sample.s0)
  = inl (Exception "ValueError"
           "The dataset must have 'Variant_Classification' and 'Stage' columns.").
Proof. reflexivity. Qed.

Example main_sample_sheets :
  match disk (snd (main Sample.fs true Sample.s0)) with
  | [(_, Workbook sheets); (_, Figure points _)] =>
    map (fun sh => (sheet_name sh, List.length (body sh))) sheets
    = [(Str "StageI", 3); (Str "StageII", 6)]
    /\ points = [(Str "StageI", 3); (Str "StageII", 6)]
  | _ => False
  end.
Proof. vm_compute. auto. Qed.

(* ================================================================= *)
(** ** Further properties: what the reader and the sampler return *)

(** X1.  When the file parses, has both required columns and at least
    one row whose [Variant_Classification] is a coding variant,
    [read_maf_file] returns the frame made of exactly those rows, in
    file order and with their labels, under all the columns of the
    file; it prints nothing. *)
Theorem read_maf_file_keeps_coding_rows :
  forall fs hugo_first maf_path maf_df s,
    pd_read_csv fs maf_path = inr maf_df ->
    In "Hugo_Symbol" (columns maf_df) ->
    In "Variant_Classification" (columns maf_df) ->
    let kept :=
        filter (fun r =>
                  match get_cell (columns maf_df) r "Variant_Classification" with
                  | Str v => str_in v CODING_VARIANTS
                  | _ => false
                  end) (rows maf_df) in
    kept <> [] ->
    read_maf_file fs hugo_first maf_path s
    = (inr (Some (mkDF (columns maf_df) kept)), s).
Proof.
  intros fs hugo_first maf_path maf_df s E Hh Hv kept Hne.
  rewrite (read_maf_file_settles fs hugo_first maf_path s).
  unfold maf_read, maf_lines. rewrite E.
  rewrite (proj2 (required_present _) (conj Hh Hv)), printed_nil.
  change (coding_part maf_df) with (mkDF (columns maf_df) kept).
  unfold empty. cbn [rows columns].
  destruct kept as [| r0 kept']; [congruence |].
  destruct (columns maf_df) as [| c0 cols]; [destruct Hh | reflexivity].
Qed.

Lemma read_maf_file_keeps_coding_rows_witness :
  read_maf_file Sample.fs true "./grade_generalised/StageI/caseA/a.maf" Sample.s0
  = (inr (Some (mkDF ["Hugo_Symbol"; "Variant_Classification"; "Start_Position"]
                     [mkRow 0 [Str "TP53"; Str "Missense_Mutation"; Num 7578406];
                      mkRow 2 [Str "EGFR"; Str "Splice_Site"]])),
     Sample.s0).
Proof.
  apply (@read_maf_file_keeps_coding_rows Sample.fs true
           "./grade_generalised/StageI/caseA/a.maf" Sample.tp53 Sample.s0).
  - reflexivity.
  - simpl. auto.
  - simpl. auto.
  - vm_compute. discriminate.
Defined.

Lemma stamped_tables_read fs hugo_first stage case maf_files :
  stamped_tables fs stage case maf_files
  = flat_map (fun f =>
                match fst (read_maf_file fs hugo_first f blank) with
                | inr (Some maf_df) =>
                  [setitem (setitem maf_df "Case" (Str case)) "Stage" (Str stage)]
                | _ => []
                end) maf_files.
Proof.
  unfold stamped_tables. apply flat_map_ext. intros f.
  destruct (settles_blank (read_maf_file_settles fs hugo_first f)) as [E _].
  rewrite E. reflexivity.
Qed.

(** X2.  What [get_sample_mutation_data] returns is, case by case in
    the order of selection and file by file in the order
    [find_maf_files] lists them, the frame [read_maf_file] returns for
    the file with [Case] and [Stage] set; a file for which
    [read_maf_file] returns [None] contributes nothing and does not
    stop the loop. *)
Theorem get_sample_mutation_data_in_order :
  forall fs hugo_first stage s mutation_data s',
    get_sample_mutation_data fs hugo_first stage s = (inr mutation_data, s') ->
    mutation_data
    = flat_map
        (fun case =>
           flat_map
             (fun maf_file =>
                match fst (read_maf_file fs hugo_first maf_file blank) with
                | inr (Some maf_df) =>
                  [setitem (setitem maf_df "Case" (Str case)) "Stage" (Str stage)]
                | _ => []
                end)
             (files_found fs
                (os_path_join (os_path_join BASE_FOLDER stage) case)))
        (stage_selection fs stage s).
Proof.
  intros fs hugo_first stage s tables s' E.
  rewrite (get_sample_mutation_data_tables _ _ _ _ E).
  unfold stage_tables. apply flat_map_ext. intros case.
  apply stamped_tables_read.
Qed.

Lemma get_sample_mutation_data_in_order_witness :
  map len
      (match fst (get_sample_mutation_data Sample.fs true "StageI" Sample.s0) with
       | inr mutation_data => mutation_data
       | inl _ => []
       end)
  = [2; 1].
Proof.
  destruct (get_sample_mutation_data Sample.fs true "StageI" Sample.s0)
    as [r s'] eqn:E.
  assert (Er : exists tables, r = inr tables).
  { replace r with (fst (get_sample_mutation_data Sample.fs true "StageI" Sample.s0))
      by (rewrite E; reflexivity).
    vm_compute. eauto. }
  destruct Er as [tables Er]. subst r. simpl.
  rewrite (@get_sample_mutation_data_in_order
             Sample.fs true "StageI" Sample.s0 tables s' E).
  vm_compute. reflexivity.
Defined.

Lemma setitem_idx df c v :
  map idx (rows (setitem df c v)) = map idx (rows df).
Proof. unfold setitem. cbn [rows]. rewrite map_map. reflexivity. Qed.

Lemma setitem_other_column df c v x :
  In x (columns df) -> x <> c ->
  map (fun r => get_cell (columns (setitem df c v)) r x) (rows (setitem df c v))
  = map (fun r => get_cell (columns df) r x) (rows df).
Proof.
  intros Hx Hne.
  assert (Hx' : In x (columns (setitem df c v)))
    by (apply setitem_columns; now left).
  unfold setitem in *. cbn [rows columns] in *. rewrite map_map.
  apply map_ext. intros r. rewrite (@get_cell_rebuild _ _ r x Hx').
  apply String.eqb_neq in Hne. now rewrite Hne.
Qed.

(** X3.  Stamping changes nothing else: every table
    [get_sample_mutation_data] returns comes from a file found under a
    selected case, keeps the file's columns in their order (with
    [Case] and [Stage] appended when the file has none), keeps the
    labels of the coding rows, and holds in every column of the file
    other than [Case] and [Stage] the cells the file has in its coding
    rows. *)
Theorem get_sample_mutation_data_keeps_cells :
  forall fs hugo_first stage s mutation_data s',
    get_sample_mutation_data fs hugo_first stage s = (inr mutation_data, s') ->
    forall table, In table mutation_data ->
    exists case maf_path maf_df,
      In case (stage_selection fs stage s) /\
      In maf_path (files_found fs
                     (os_path_join (os_path_join BASE_FOLDER stage) case)) /\
      pd_read_csv fs maf_path = inr maf_df /\
      let kept :=
          filter (fun r =>
                    match get_cell (columns maf_df) r "Variant_Classification" with
                    | Str v => str_in v CODING_VARIANTS
                    | _ => false
                    end) (rows maf_df) in
      let cols1 :=
          if str_in "Case" (columns maf_df) then columns maf_df
          else columns maf_df ++ ["Case"] in
      columns table = (if str_in "Stage" cols1 then cols1 else cols1 ++ ["Stage"]) /\
      map idx (rows table) = map idx kept /\
      forall c, In c (columns maf_df) -> c <> "Case" -> c <> "Stage" ->
                map (fun r => get_cell (columns table) r c) (rows table)
                = map (fun r => get_cell (columns maf_df) r c) kept.
Proof.
  intros fs hugo_first stage s tables s' E table Hin.
  rewrite (get_sample_mutation_data_tables _ _ _ _ E) in Hin.
  unfold stage_tables, stamped_tables in Hin.
  apply in_flat_map in Hin. destruct Hin as [case [Hcase Hin]].
  apply in_flat_map in Hin. destruct Hin as [f [Hf Hin]].
  destruct (maf_read fs f) as [dfk |] eqn:Er; [| destruct Hin].
  destruct Hin as [Hin | []]. subst table.
  apply maf_read_some in Er. destruct Er as [df [Ep [_ [_ [Ek _]]]]]. subst dfk.
  exists case, f, df. split; [exact Hcase |]. split; [exact Hf |].
  split; [exact Ep |]. intros kept cols1. unfold stamp.
  split; [reflexivity |]. split.
  - now rewrite !setitem_idx.
  - intros c Hc Hn1 Hn2.
    rewrite setitem_other_column;
      [| apply setitem_columns; left; exact Hc | exact Hn2].
    rewrite setitem_other_column; [reflexivity | exact Hc | exact Hn1].
Qed.

Lemma get_sample_mutation_data_keeps_cells_witness :
  exists table case maf_path maf_df,
    In table Sample.stage_one_tables /\
    In case (stage_selection Sample.fs "StageI" Sample.s0) /\
    In maf_path
       (files_found Sample.fs
          (os_path_join (os_path_join BASE_FOLDER "StageI") case)) /\
    pd_read_csv Sample.fs maf_path = inr maf_df /\
    forall c, In c (columns maf_df) -> c <> "Case" -> c <> "Stage" ->
              map (fun r => get_cell (columns table) r c) (rows table)
              = map (fun r => get_cell (columns maf_df) r c)
                    (filter (is_coding (columns maf_df)) (rows maf_df)).
Proof.
  assert (Hin : In (hd (mkDF [] []) Sample.stage_one_tables)
                   Sample.stage_one_tables)
    by (vm_compute; left; reflexivity).
  destruct (@get_sample_mutation_data_keeps_cells
              Sample.fs true "StageI" Sample.s0 Sample.stage_one_tables
              (snd (get_sample_mutation_data Sample.fs true "StageI" Sample.s0)))
    with (table := hd (mkDF [] []) Sample.stage_one_tables)
    as [case [p [df [H1 [H2 [H3 [_ [_ H4]]]]]]]].
  - vm_compute. reflexivity.
  - exact Hin.
  - exists (hd (mkDF [] []) Sample.stage_one_tables), case, p, df.
    repeat split; assumption.
Defined.

(* ================================================================= *)
(** ** Further properties: when [main] raises *)






Lemma collect_without_stage_directories fs hugo_first sts :
  (forall stage, In stage sts ->
     os_path_exists fs (os_path_join BASE_FOLDER stage) = false) ->
  forall acc,
    settles (for_each sts
               (fun stage all_mutation_data =>
                  mutation_data <- get_sample_mutation_data fs hugo_first stage ;;
                  ret (all_mutation_data ++ mutation_data))
               acc)
            acc
            (map (fun stage =>
                    ("Warning: " ++ os_path_join BASE_FOLDER stage
                       ++ " does not exist.")%string) sts).
Proof.
  induction sts as [| stage sts IH]; intros H acc; cbn [for_each map].
  - apply settles_ret.
  - apply (@settles_bind _ _ _ _ acc
             [("Warning: " ++ os_path_join BASE_FOLDER stage
                 ++ " does not exist.")%string]).
    + rewrite <- (app_nil_r [_]).
      apply (@settles_bind _ _ _ _ (@nil DataFrame)).
      * unfold get_sample_mutation_data.
        rewrite (H stage (or_introl eq_refl)). simpl.
        rewrite <- (app_nil_r [_]).
        eapply settles_bind; [apply settles_print | apply settles_ret].
      * rewrite app_nil_r. apply settles_ret.
    + apply IH. intros st Hst. apply H. now right.
Qed.

(** X5.  When none of the four stage directories exists, [main]
    prints one warning per stage, in the order of the stages, and then
    the diagnostic; it returns normally, writes no file and draws no
    random number. *)
Theorem main_without_stage_directories :
  forall fs hugo_first s,
    (forall stage, In stage stages ->
       os_path_exists fs (os_path_join BASE_FOLDER stage) = false) ->
    main fs hugo_first s
    = (inr tt,
       printed s
         ["Warning: ./grade_generalised/StageI does not exist.";
          "Warning: ./grade_generalised/StageII does not exist.";
          "Warning: ./grade_generalised/StageIII does not exist.";
          "Warning: ./grade_generalised/StageIV does not exist.";
          "No coding mutation data collected! Ensure MAF files exist."]).
Proof.
  intros fs hugo_first s H.
  pose proof (collect_without_stage_directories fs hugo_first stages H [] s) as Ec.
  fold (collect_all fs hugo_first) in Ec.
  unfold main, bind. rewrite Ec. unfold print, printed. simpl.
  rewrite <- app_assoc. reflexivity.
Qed.

Lemma main_without_stage_directories_witness :
  fst (main (mkFS (Dir [("grade_generalised", File (inr Sample.tp53))]) [])
            true Sample.s0)
  = inr tt.
Proof.
  rewrite (@main_without_stage_directories
             (mkFS (Dir [("grade_generalised", File (inr Sample.tp53))]) [])
             true Sample.s0).
  - reflexivity.
  - intros stage Hin. simpl in Hin.
    repeat (destruct Hin as [Hin | Hin]; [subst stage; reflexivity |]).
    destruct Hin.
Defined.

(* ================================================================= *)
(** ** Further properties: the sheets and the points *)












(* ================================================================= *)
(** ** Further properties: the paths the locator returns *)

Lemma assoc_some_in name x es : assoc name es = Some x -> In (name, x) es.
Proof.
  induction es as [| [n y] es IH]; simpl; [discriminate |].
  destruct (String.eqb name n) eqn:E.
  - apply String.eqb_eq in E. intros H. injection H as H. subst. now left.
  - intros H. right. auto.
Qed.

Lemma wf_names_lookup p : forall r n,
  wf_names r -> lookup p r = Some n -> wf_names n.
Proof.
  induction p as [| c p IH]; intros r n Hwf Hl; simpl in Hl.
  - injection Hl as Hl. now subst.
  - destruct r as [parsed | es]; [discriminate |].
    destruct (assoc c es) as [x |] eqn:Ea; [| discriminate].
    apply (IH x n); [| exact Hl].
    apply (@wf_names_child c x es Hwf). now apply assoc_some_in.
Qed.

Lemma wf_names_resolve fs p n :
  wf_names (root fs) -> resolve fs p = Some n -> wf_names n.
Proof.
  intros Hwf Hr. unfold resolve in Hr.
  destruct (String.eqb p ""); [discriminate |].
  destruct (resolve_from (root fs) _ (split_sep p)) as [q |]; [| discriminate].
  exact (@wf_names_lookup q (root fs) n Hwf Hr).
Qed.

Lemma str_endswith_app a s p :
  str_endswith s p = true -> str_endswith (a ++ s) p = true.
Proof.
  intros H. induction a as [| c a IH]; [exact H |].
  cbn [append]. rewrite str_endswith_cons, IH. apply orb_true_r.
Qed.

Lemma str_endswith_join dir name p :
  str_endswith name p = true -> str_endswith (os_path_join dir name) p = true.
Proof.
  intros H. unfold os_path_join.
  destruct (str_startswith name "/"); [exact H |].
  destruct (String.eqb dir "" || str_endswith dir "/").
  - now apply str_endswith_app.
  - apply str_endswith_app. now apply (str_endswith_app "/").
Qed.

(** X8.  In a tree whose directories have entries of distinct, proper
    names, every path [find_maf_files] returns ends in [.maf], exists,
    is not a directory, and resolves to a regular file: [pd.read_csv]
    on it gives what the file parses to, never the error of a path
    that is missing or is a directory. *)
Theorem found_files_are_regular_files :
  forall fs directory s maf_files s',
    wf_names (root fs) ->
    find_maf_files fs directory s = (inr maf_files, s') ->
    forall p, In p maf_files ->
      str_endswith p ".maf" = true /\
      os_path_exists fs p = true /\
      os_path_isdir fs p = false /\
      exists parsed, resolve fs p = Some (File parsed) /\
                     pd_read_csv fs p = parsed.
Proof.
  intros fs directory s maf_files s' Hwf E p Hp.
  rewrite (find_maf_files_settles fs directory s) in E.
  injection E as E _. subst maf_files.
  apply in_flat_map in Hp. destruct Hp as [[[dir dirs] files] [Hw Hp]].
  apply in_maf_of_triple in Hp. cbn [fst snd] in Hp.
  destruct Hp as [name [Hn [Hs Ep]]]. subst p.
  unfold os_walk in Hw.
  destruct (os_scandir fs directory) as [e | es] eqn:Esc; [destruct Hw |].
  assert (Hr : resolve fs directory = Some (Dir es)).
  { unfold os_scandir in Esc.
    destruct (resolve fs directory) as [[parsed | es0] |]; try discriminate.
    injection Esc as Esc. now subst. }
  assert (Hf : has_file directory (Dir es) dir name)
    by (apply walk_node_files; eauto).
  destruct (@found_paths_resolve fs directory (Dir es) dir name Hf
              (@wf_names_resolve fs directory (Dir es) Hwf Hr) Hr)
    as [parsed Hres].
  split; [now apply str_endswith_join |].
  unfold os_path_exists, os_path_isdir, pd_read_csv. rewrite Hres.
  repeat split. exists parsed. auto.
Qed.

Lemma found_files_are_regular_files_witness :
  os_path_exists Sample.fs "./grade_generalised/StageI/caseA/sub/b.maf" = true /\
  os_path_isdir Sample.fs "./grade_generalised/StageI/caseA/sub/b.maf" = false.
Proof.
  destruct (@found_files_are_regular_files
              Sample.fs "./grade_generalised/StageI/caseA" Sample.s0
              (files_found Sample.fs "./grade_generalised/StageI/caseA")
              Sample.s0)
    with (p := "./grade_generalised/StageI/caseA/sub/b.maf")
    as [_ [H1 [H2 _]]].
  - simpl. repeat split;
      repeat constructor; simpl; try (intuition discriminate);
      intros name H; simpl in H;
      repeat (destruct H as [H | H]; [subst name; reflexivity |]);
      destruct H.
  - reflexivity.
  - vm_compute. auto.
  - auto.
Defined.

Lemma rel_files_dir es :
  rel_files (Dir es)
  = map (fun name => [name])
        (filter (fun f => str_endswith f ".maf") (filenames es))
    ++ rel_entries es.
Proof.
  simpl. f_equal. unfold rel_entries.
  induction es as [| [d child] es IH]; simpl; [reflexivity | now rewrite IH].
Qed.

Lemma joins_cons top d l : joins top (d :: l) = joins (os_path_join top d) l.
Proof. reflexivity. Qed.

(** The paths found by walking are the lists of names of [rel_files],
    joined to the top. *)
Lemma walk_rel_files n : forall top,
  flat_map maf_of_triple (walk_node top n) = map (joins top) (rel_files n).
Proof.
  induction n as [parsed | es IH] using node_nested_ind; intros top;
    [reflexivity |].
  rewrite walk_node_dir, rel_files_dir, map_app. cbn [flat_map maf_of_triple].
  f_equal; [now rewrite map_map |].
  unfold walk_entries, rel_entries.
  induction es as [| [d child] es IHes]; [reflexivity |].
  inversion IH as [| ? ? Hc Hes]. subst. cbn [flat_map fst snd].
  rewrite flat_map_app, map_app, (IHes Hes). f_equal.
  simpl in Hc. rewrite Hc, map_map. reflexivity.
Qed.

Lemma in_rel_entries es l :
  In l (rel_entries es) <->
  exists d child cs, In (d, child) es /\ In cs (rel_files child) /\ l = d :: cs.
Proof.
  unfold rel_entries. rewrite in_flat_map. split.
  - intros [[d child] [He Hl]]. simpl in Hl. apply in_map_iff in Hl.
    destruct Hl as [cs [E Hcs]]. exists d, child, cs. auto.
  - intros [d [child [cs [He [Hcs E]]]]]. exists (d, child). split; [exact He |].
    simpl. apply in_map_iff. exists cs. auto.
Qed.

Lemma in_filenames_names name es : In name (filenames es) -> In name (map fst es).
Proof.
  intros H. apply in_filenames in H. destruct H as [parsed H].
  apply in_map_iff. exists (name, File parsed). auto.
Qed.

(** Every list of [rel_files] is a non-empty list of proper names. *)
Lemma rel_files_names n : forall l,
  wf_names n -> In l (rel_files n) ->
  l <> [] /\ Forall (fun c => valid_name c = true) l.
Proof.
  induction n as [parsed | es IH] using node_nested_ind; intros l Hwf Hl;
    [destruct Hl |].
  rewrite rel_files_dir in Hl. apply in_app_or in Hl. destruct Hl as [Hl | Hl].
  - apply in_map_iff in Hl. destruct Hl as [name [E Hn]]. subst l.
    apply filter_In in Hn. destruct Hn as [Hn _].
    destruct Hwf as [_ [Hval _]]. split; [discriminate |].
    constructor; [apply Hval; now apply in_filenames_names | constructor].
  - apply in_rel_entries in Hl. destruct Hl as [d [child [cs [He [Hcs E]]]]].
    subst l. split; [discriminate |].
    rewrite Forall_forall in IH.
    destruct (IH (d, child) He cs (wf_names_child _ _ Hwf He) Hcs) as [_ Hf].
    destruct Hwf as [_ [Hval _]]. constructor; [| exact Hf].
    apply Hval. apply in_map_iff. exists (d, child). auto.
Qed.

Lemma NoDup_map_injective {A B} (f : A -> B) (l : list A) :
  (forall x y, f x = f y -> x = y) -> NoDup l -> NoDup (map f l).
Proof.
  intros Hinj Hl. apply NoDup_map_NoDup_ForallPairs; [| exact Hl].
  intros x y _ _. apply Hinj.
Qed.

Lemma filenames_nodup es : NoDup (map fst es) -> NoDup (filenames es).
Proof.
  unfold filenames. induction es as [| e es IH]; intros H; simpl; [constructor |].
  inversion H as [| ? ? Hn Hnd]. subst.
  destruct (negb (is_dir (snd e))); simpl; [| auto].
  constructor; [| auto]. intros Hin. apply Hn.
  apply in_map_iff in Hin. destruct Hin as [e' [E He']].
  apply filter_In in He'. apply in_map_iff. exists e'. tauto.
Qed.

Lemma rel_entries_nodup es :
  NoDup (map fst es) ->
  (forall e, In e es -> NoDup (rel_files (snd e))) ->
  NoDup (rel_entries es).
Proof.
  induction es as [| [d child] es IH]; intros Hnd Hch; [constructor |].
  inversion Hnd as [| ? ? Hd Hnd']. subst.
  change (rel_entries ((d, child) :: es))
    with (map (cons d) (rel_files child) ++ rel_entries es).
  apply NoDup_app.
  - apply NoDup_map_injective; [intros x y E; now injection E |].
    apply (Hch (d, child)). now left.
  - apply IH; [exact Hnd' |]. intros e He. apply Hch. now right.
  - intros l H1 H2. apply in_map_iff in H1. destruct H1 as [cs [E _]]. subst l.
    apply in_rel_entries in H2.
    destruct H2 as [d' [child' [cs' [He [_ E]]]]]. injection E as E1 E2. subst d'.
    apply Hd. apply in_map_iff. exists (d, child'). auto.
Qed.

(** No [.maf] file is listed twice. *)
Lemma rel_files_nodup n : wf_names n -> NoDup (rel_files n).
Proof.
  induction n as [parsed | es IH] using node_nested_ind; intros Hwf;
    [constructor |].
  rewrite rel_files_dir. apply NoDup_app.
  - apply NoDup_map_injective; [intros x y E; now injection E |].
    apply NoDup_filter, filenames_nodup. now destruct Hwf.
  - apply rel_entries_nodup; [now destruct Hwf |].
    intros [d child] He. rewrite Forall_forall in IH.
    apply (IH (d, child) He). exact (wf_names_child _ _ Hwf He).
  - intros l H1 H2. apply in_map_iff in H1. destruct H1 as [name [E _]].
    subst l. apply in_rel_entries in H2.
    destruct H2 as [d [child [cs [He [Hcs E]]]]]. injection E as _ E. subst cs.
    destruct (rel_files_names child [] (wf_names_child _ _ Hwf He) Hcs) as [H _].
    now apply H.
Qed.

(** Joining a proper name to [top] adds it as the last component. *)
Lemma join_components top :
  exists base, forall c,
      valid_name c = true -> split_sep (os_path_join top c) = base ++ [c].
Proof.
  destruct (String.eqb top "") eqn:Et.
  - apply String.eqb_eq in Et. subst top. exists []. intros c Hv.
    destruct (valid_name_parts _ Hv) as [_ [_ [_ Hs]]].
    unfold os_path_join. rewrite (str_startswith_name _ Hs). simpl.
    now apply split_sep_name.
  - destruct (str_endswith top "/") eqn:Ee.
    + apply str_endswith_suffix in Ee. destruct Ee as [pre E]. subst top.
      exists (split_sep pre). intros c Hv.
      destruct (valid_name_parts _ Hv) as [_ [_ [_ Hs]]].
      unfold os_path_join. rewrite (str_startswith_name _ Hs), Et.
      rewrite (str_endswith_app pre "/" "/" eq_refl). simpl orb. cbv iota.
      rewrite str_app_assoc. simpl append at 2.
      now rewrite split_sep_app, (split_sep_name _ Hs).
    + exists (split_sep top). intros c Hv.
      destruct (valid_name_parts _ Hv) as [_ [_ [_ Hs]]].
      unfold os_path_join. rewrite (str_startswith_name _ Hs), Et, Ee.
      simpl orb. cbv iota.
      change ("/" ++ c)%string with (String "/" c).
      now rewrite split_sep_app, (split_sep_name _ Hs).
Qed.

Lemma join_components_step top base c :
  (forall c, valid_name c = true -> split_sep (os_path_join top c) = base ++ [c]) ->
  valid_name c = true ->
  forall d, valid_name d = true ->
            split_sep (os_path_join (os_path_join top c) d) = (base ++ [c]) ++ [d].
Proof.
  intros Hb Hc d Hd. specialize (Hb c Hc).
  destruct (valid_name_parts _ Hc) as [Hne _].
  destruct (valid_name_parts _ Hd) as [_ [_ [_ Hs]]].
  set (t := os_path_join top c) in *.
  assert (Ht : String.eqb t "" = false).
  { apply String.eqb_neq. intros E. rewrite E in Hb. simpl in Hb.
    change [""] with ([] ++ [""]) in Hb. apply app_inj_tail in Hb.
    destruct Hb as [_ Hb]. now subst c. }
  assert (He : str_endswith t "/" = false).
  { destruct (str_endswith t "/") eqn:Ee; [| reflexivity]. exfalso.
    apply str_endswith_suffix in Ee. destruct Ee as [pre E].
    rewrite E, split_sep_app in Hb. simpl in Hb.
    apply app_inj_tail in Hb. destruct Hb as [_ Hb]. now subst c. }
  unfold os_path_join at 1. rewrite (str_startswith_name _ Hs), Ht, He.
  simpl orb. cbv iota. change ("/" ++ d)%string with (String "/" d).
  now rewrite split_sep_app, (split_sep_name _ Hs), Hb.
Qed.

Lemma joins_components l : forall top base c,
  (forall c, valid_name c = true -> split_sep (os_path_join top c) = base ++ [c]) ->
  valid_name c = true ->
  Forall (fun d => valid_name d = true) l ->
  split_sep (joins top (c :: l)) = base ++ c :: l.
Proof.
  induction l as [| d l IH]; intros top base c Hb Hc Hl.
  - simpl. now apply Hb.
  - inversion Hl as [| ? ? Hd Hl']. subst.
    rewrite joins_cons.
    rewrite (IH (os_path_join top c) (base ++ [c]) d
                (@join_components_step top base c Hb Hc) Hd Hl').
    now rewrite <- app_assoc.
Qed.

(** Two lists of proper names joined to the same top give the same
    path only if they are the same list. *)
Lemma joins_injective top l1 l2 :
  l1 <> [] -> Forall (fun c => valid_name c = true) l1 ->
  l2 <> [] -> Forall (fun c => valid_name c = true) l2 ->
  joins top l1 = joins top l2 -> l1 = l2.
Proof.
  intros N1 V1 N2 V2 E. destruct (join_components top) as [base Hb].
  destruct l1 as [| c1 l1]; [congruence |]. destruct l2 as [| c2 l2]; [congruence |].
  inversion V1 as [| ? ? Hc1 Hl1]. inversion V2 as [| ? ? Hc2 Hl2]. subst.
  pose proof (@joins_components l1 top base c1 Hb Hc1 Hl1) as S1.
  pose proof (@joins_components l2 top base c2 Hb Hc2 Hl2) as S2.
  rewrite E, S2 in S1. now apply app_inv_head in S1.
Qed.

(** X9.  In a tree whose directories have entries of distinct, proper
    names, [find_maf_files] returns no path twice: each [.maf] file
    is listed, and so read, once. *)
Theorem find_maf_files_lists_once :
  forall fs directory s maf_files s',
    wf_names (root fs) ->
    find_maf_files fs directory s = (inr maf_files, s') ->
    NoDup maf_files.
Proof.
  intros fs directory s maf_files s' Hwf E.
  rewrite (find_maf_files_settles fs directory s) in E.
  injection E as E _. subst maf_files. unfold os_walk.
  destruct (os_scandir fs directory) as [e | es] eqn:Esc; [constructor |].
  assert (Hr : resolve fs directory = Some (Dir es)).
  { unfold os_scandir in Esc.
    destruct (resolve fs directory) as [[parsed | es0] |]; try discriminate.
    injection Esc as Esc. now subst. }
  pose proof (@wf_names_resolve fs directory (Dir es) Hwf Hr) as Hn.
  rewrite walk_rel_files.
  apply NoDup_map_NoDup_ForallPairs; [| now apply rel_files_nodup].
  intros l1 l2 H1 H2 Ej.
  destruct (@rel_files_names (Dir es) l1 Hn H1) as [N1 V1].
  destruct (@rel_files_names (Dir es) l2 Hn H2) as [N2 V2].
  exact (@joins_injective directory l1 l2 N1 V1 N2 V2 Ej).
Qed.

Lemma find_maf_files_lists_once_witness :
  NoDup (files_found Sample.fs "./grade_generalised/StageI").
Proof.
  apply (@find_maf_files_lists_once
           Sample.fs "./grade_generalised/StageI" Sample.s0
           (files_found Sample.fs "./grade_generalised/StageI") Sample.s0).
  - simpl. repeat split;
      repeat constructor; simpl; try (intuition discriminate);
      intros name H; simpl in H;
      repeat (destruct H as [H | H]; [subst name; reflexivity |]);
      destruct H.
  - reflexivity.
Defined.

(* ================================================================= *)
(** ** Further properties: the layout of the combined table *)

Lemma relabel_idx rs : forall start,
  map idx (relabel start rs) = seq start (List.length rs).
Proof.
  induction rs as [| r rs IH]; intros start; simpl; [reflexivity |].
  now rewrite IH.
Qed.

Lemma relabel_cells rs : forall start,
  map cells (relabel start rs) = map cells rs.
Proof.
  induction rs as [| r rs IH]; intros start; simpl; [reflexivity |].
  now rewrite IH.
Qed.

Lemma map_flat_map {A B C} (f : B -> C) (g : A -> list B) (l : list A) :
  map f (flat_map g l) = flat_map (fun x => map f (g x)) l.
Proof.
  induction l as [| a l IH]; simpl; [reflexivity |].
  now rewrite map_app, IH.
Qed.

Lemma union_columns_nodup cols : forall acc,
  NoDup acc -> NoDup (union_columns acc cols).
Proof.
  induction cols as [| c cols IH]; intros acc H; simpl; [exact H |].
  destruct (str_in c acc) eqn:E; [now apply IH |].
  apply IH. apply str_in_false in E.
  apply NoDup_app; [exact H | repeat constructor; intros [] |].
  intros a Ha [Hc | []]. subst a. contradiction.
Qed.

Lemma all_columns_nodup dfs : NoDup (all_columns dfs).
Proof.
  unfold all_columns. generalize (NoDup_nil string).
  generalize (@nil string). induction dfs as [| d dfs IH]; intros acc H; simpl.
  - exact H.
  - apply IH. now apply union_columns_nodup.
Qed.

Lemma get_cell_absent cols r c : ~ In c cols -> get_cell cols r c = NA.
Proof.
  intros H. unfold get_cell.
  assert (E : col_index c cols = None).
  { induction cols as [| h t IH]; [reflexivity |]. simpl.
    destruct (String.eqb c h) eqn:Eh.
    - apply String.eqb_eq in Eh. subst h. exfalso. apply H. now left.
    - rewrite IH; [reflexivity |]. intros Hin. apply H. now right. }
  now rewrite E.
Qed.

(** X10.  The table [main] builds with
    [pd.concat(all_mutation_data, ignore_index=True)] has each column
    label of the collected tables once; its rows are the rows of the
    collected tables, table after table and row after row, laid out
    under those columns, null where the row's table has no such
    column; and they are relabelled 0, 1, 2, ... whatever labels the
    filtered tables carried. *)
Theorem combined_table_layout :
  forall fs hugo_first s all_mutation_data s1 combined_df,
    collect_all fs hugo_first s = (inr all_mutation_data, s1) ->
    pd_concat all_mutation_data true = inr combined_df ->
    main fs hugo_first s
    = (save_to_excel combined_df "mutation_cnv_filtered.xlsx" ;;;
       visualize_mutation_cnv combined_df) s1 /\
    NoDup (columns combined_df) /\
    (forall c, In c (columns combined_df) <->
               exists table, In table all_mutation_data /\ In c (columns table)) /\
    map idx (rows combined_df) = seq 0 (len combined_df) /\
    map cells (rows combined_df)
    = flat_map
        (fun table =>
           map (fun r => map (fun c => get_cell (columns table) r c)
                             (columns combined_df))
               (rows table))
        all_mutation_data /\
    (forall table r c,
        In table all_mutation_data -> ~ In c (columns table) ->
        get_cell (columns table) r c = NA).
Proof.
  intros fs hugo_first s all s1 combined Ec Ep.
  split; [now apply main_after_collect with (all := all) |].
  assert (Hne : all <> []) by (intros E0; subst; discriminate).
  rewrite (pd_concat_nonempty Hne) in Ep. injection Ep as Ep. subst combined.
  cbn [columns rows]. split; [apply all_columns_nodup |].
  split; [intros c; apply in_all_columns |]. split; [| split].
  - unfold len. cbn [rows]. rewrite relabel_idx, relabel_length. reflexivity.
  - rewrite relabel_cells, map_flat_map. apply flat_map_ext. intros table.
    unfold reindex_columns. rewrite map_map. reflexivity.
  - intros table r c _ Hc. now apply get_cell_absent.
Qed.

Lemma combined_table_layout_witness :
  exists combined_df,
    pd_concat Sample.collected true = inr combined_df /\
    NoDup (columns combined_df) /\
    map idx (rows combined_df) = seq 0 (len combined_df).
Proof.
  destruct (pd_concat Sample.collected true) as [e | combined] eqn:Ep;
    [vm_compute in Ep; discriminate |].
  exists combined. split; [reflexivity |].
  destruct (@combined_table_layout Sample.fs true Sample.s0 Sample.collected
              Sample.s1 combined) as [_ [H1 [_ [H2 _]]]].
  - vm_compute. reflexivity.
  - exact Ep.
  - auto.
Defined.
